(** * The CSS selector builder of [src/06-objects-tasks.js]

    A shallow embedding of [Selector] and [cssSelectorBuilder], with the
    mutable JavaScript objects kept in an explicit store, followed by the
    properties of the builder that the specification states. *)

From stdpp Require Import base option list strings gmap.
From Stdlib Require Import ZArith Lia.

(** ** JavaScript values that occur in the builder *)

(** The property names that [callMeth] receives as [fName]: the six
    fragment methods; [setNewSelector] dispatches on the same names. *)
Inductive fname :=
  | KElement | KId | KClass | KAttr | KPseudoClass | KPseudoElement.

#[global] Instance fname_eq_dec : EqDecision fname.
Proof. solve_decision. Defined.

Definition fname_code (f : fname) : nat :=
  match f with
  | KElement => 0 | KId => 1 | KClass => 2
  | KAttr => 3 | KPseudoClass => 4 | KPseudoElement => 5
  end.

Definition fname_of_code (n : nat) : fname :=
  match n with
  | 0 => KElement | 1 => KId | 2 => KClass
  | 3 => KAttr | 4 => KPseudoClass | _ => KPseudoElement
  end.

#[global] Instance fname_countable : Countable fname.
Proof.
  apply (inj_countable' fname_code fname_of_code).
  intros []; reflexivity.
Defined.

(** The JavaScript property name of each [fname]. *)
Definition fname_str (f : fname) : string :=
  match f with
  | KElement => "element" | KId => "id" | KClass => "class"
  | KAttr => "attr" | KPseudoClass => "pseudoClass"
  | KPseudoElement => "pseudoElement"
  end.

(** The numbers stored in [unicCall]: the counters start at 0 and are only
    ever incremented by 1, so they are naturals (exactly so below 2^53
    calls, and above 1 ever after), or NaN once [undefined + 1] has been
    stored under a key the object did not have. *)
Inductive num := Num (n : nat) | NaN.

#[global] Instance num_eq_dec : EqDecision num.
Proof. solve_decision. Defined.

(** [x + 1] for [x = obj[key]], the lookup giving [None] for [undefined]. *)
Definition js_add1 (x : option num) : num :=
  match x with
  | Some (Num n) => Num (S n)
  | Some NaN => NaN
  | None => NaN
  end.

(** [x > 1]; every comparison with NaN is false. *)
Definition js_gt1 (x : num) : bool :=
  match x with
  | Num n => bool_decide (1 < n)%nat
  | NaN => false
  end.

(** The two [new Error(...)] of [Selector], and the TypeError that the
    engine raises (a property of [undefined], [reduce] of an empty array). *)
Inductive exn := Error (msg : string) | TypeError.

#[global] Instance exn_eq_dec : EqDecision exn.
Proof. solve_decision. Defined.

Definition msg_unique : string :=
  "Element, id and pseudo-element should not occur more then one time inside the selector".

Definition msg_order : string :=
  "Selector parts should be arranged in the following order: element, id, class, attribute, pseudo-class, pseudo-element".

(** Locations of [Selector] objects in the store. *)
Definition loc := nat.

(** The one facade object, [cssSelectorBuilder]. *)
Inductive facade := Builder.

#[global] Instance facade_eq_dec : EqDecision facade.
Proof. solve_decision. Defined.

(** Values passed to [combine] and kept in [splitters]. Numbers are left
    out: their conversion to a string is floating-point formatting. *)
Inductive jsval :=
  | VUndefined
  | VNull
  | VBool (b : bool)
  | VStr (s : string)
  | VSel (l : loc)
  | VFacade.

(** ToBoolean. *)
Definition truthy (v : jsval) : bool :=
  match v with
  | VUndefined | VNull => false
  | VBool b => b
  | VStr s => negb (bool_decide (s = ""))
  | VSel _ | VFacade => true
  end.

(** ToString, as a template literal applies it. *)
Definition to_string (v : jsval) : string :=
  match v with
  | VUndefined => "undefined"
  | VNull => "null"
  | VBool true => "true"
  | VBool false => "false"
  | VStr s => s
  | VSel _ | VFacade => "[object Object]"
  end.

(** ** Computations that mutate a state and may throw

    A thrown exception leaves the state as it was mutated so far. *)
Inductive res (S A : Type) :=
  | Ok (s : S) (a : A)
  | Throw (s : S) (e : exn).
Arguments Ok {S A} s a.
Arguments Throw {S A} s e.

Definition M (S A : Type) : Type := S → res S A.

#[global] Instance M_ret {S} : MRet (M S) := λ A a s, Ok s a.
#[global] Instance M_bind {S} : MBind (M S) := λ A B f m s,
  match m s with
  | Ok s' a => f a s'
  | Throw s' e => Throw s' e
  end.

Definition throw {S A} (e : exn) : M S A := λ s, Throw s e.
Definition gets {S A} (f : S → A) : M S A := λ s, Ok s (f s).
Definition modify {S} (f : S → S) : M S unit := λ s, Ok (f s) tt.

(** The state and the value a computation ends with. *)
Definition state_of {S A} (r : res S A) : S :=
  match r with Ok s _ => s | Throw s _ => s end.
Definition value_of {S A} (r : res S A) : option A :=
  match r with Ok _ a => Some a | Throw _ _ => None end.
Definition thrown {S A} (r : res S A) : option exn :=
  match r with Ok _ _ => None | Throw _ e => Some e end.

(** ** [Selector] *)

Record selector := MkSelector {
  str : string;
  last : option fname;
  unicCall : gmap fname num;
  prototype : option facade;
}.

Definition set_str (f : string → string) (this : selector) : selector :=
  MkSelector (f (str this)) (last this) (unicCall this) (prototype this).
Definition set_last (k : option fname) (this : selector) : selector :=
  MkSelector (str this) k (unicCall this) (prototype this).
Definition set_unicCall (u : gmap fname num) (this : selector) : selector :=
  MkSelector (str this) (last this) u (prototype this).
Definition set_prototype (p : option facade) (this : selector) : selector :=
  MkSelector (str this) (last this) (unicCall this) p.

(** [orderRule], the same constant array in every [Selector]. *)
Definition orderRule : list fname :=
  [KElement; KId; KClass; KAttr; KPseudoClass; KPseudoElement].

Fixpoint index_from (l : list fname) (x : fname) (i : Z) : Z :=
  match l with
  | [] => (-1)%Z
  | y :: r => if decide (y = x) then i else index_from r x (i + 1)%Z
  end.

(** [Array.prototype.indexOf]; [null] is no element of [orderRule]. *)
Definition indexOf (l : list fname) (x : option fname) : Z :=
  match x with
  | None => (-1)%Z
  | Some k => index_from l k 0%Z
  end.
Arguments indexOf : simpl never.

(** [x || ''] for an optional string argument. *)
Definition or_empty (x : option string) : string := default "" x.

Module Selector.

(** [Selector()]: the object literal, before [prototype] is assigned. *)
Definition new : selector :=
  {| str := "";
     last := None;
     unicCall := {[ KId := Num 0; KPseudoElement := Num 0; KElement := Num 0 ]};
     prototype := None |}.

Definition checkCall (fName : fname) : M selector unit := λ this,
  let n := js_add1 (unicCall this !! fName) in
  let this := set_unicCall (<[fName := n]> (unicCall this)) this in
  if js_gt1 n then Throw this (Error msg_unique) else Ok this tt.

Definition checkOrder (fName : fname) : M selector unit := λ this,
  let isOrdered :=
    bool_decide (indexOf orderRule (last this) ≤ indexOf orderRule (Some fName))%Z in
  let this := set_last (Some fName) this in
  if negb isOrdered then Throw this (Error msg_order) else Ok this tt.

Definition callMeth (v : string) (fName : fname)
    (addBefore addAfter : option string) : M selector unit :=
  checkCall fName ;;
  checkOrder fName ;;
  modify (set_str (λ s, s +:+ or_empty addBefore)) ;;
  modify (set_str (λ s, s +:+ v)) ;;
  modify (set_str (λ s, s +:+ or_empty addAfter)).

Definition element (v : string) := callMeth v KElement None None.
Definition id (v : string) := callMeth v KId (Some "#") None.
Definition class (v : string) := callMeth v KClass (Some ".") None.
Definition attr (v : string) := callMeth v KAttr (Some "[") (Some "]").
Definition pseudoClass (v : string) := callMeth v KPseudoClass (Some ":") None.
Definition pseudoElement (v : string) := callMeth v KPseudoElement (Some "::") None.

(** The statements of [stringify] on the object's own fields; the
    assignment through [this.prototype] is in [SelectorAt.stringify]. *)
Definition stringify_own : M selector string := λ this,
  Ok (set_last None (set_str (λ _, "") this)) (str this).

(** [this[f](v)] for a fragment method name [f]. *)
Definition call (f : fname) (v : string) : M selector unit :=
  match f with
  | KElement => element v
  | KId => id v
  | KClass => class v
  | KAttr => attr v
  | KPseudoClass => pseudoClass v
  | KPseudoElement => pseudoElement v
  end.

End Selector.

(** ** The store and [cssSelectorBuilder] *)

(** The [Selector] objects created so far, by location, and the two arrays
    of the facade: [selectors] holds references into the store. *)
Record world := MkWorld {
  heap : list selector;
  selectors : list loc;
  splitters : list jsval;
}.

Definition set_heap (h : list selector) (w : world) : world :=
  MkWorld h (selectors w) (splitters w).
Definition set_selectors (l : list loc) (w : world) : world :=
  MkWorld (heap w) l (splitters w).
Definition set_splitters (l : list jsval) (w : world) : world :=
  MkWorld (heap w) (selectors w) l.

(** A method of the object at [l], run on the store; it returns [this].
    A reference bound to no object reads as [undefined], whose methods
    cannot be called. *)
Definition on (l : loc) (m : M selector unit) : M world loc := λ w,
  match heap w !! l with
  | None => Throw w TypeError
  | Some this =>
      match m this with
      | Ok this' _ => Ok (set_heap (<[l := this']> (heap w)) w) l
      | Throw this' e => Throw (set_heap (<[l := this']> (heap w)) w) e
      end
  end.

Module SelectorAt.

Definition element (l : loc) (v : string) := on l (Selector.element v).
Definition id (l : loc) (v : string) := on l (Selector.id v).
Definition class (l : loc) (v : string) := on l (Selector.class v).
Definition attr (l : loc) (v : string) := on l (Selector.attr v).
Definition pseudoClass (l : loc) (v : string) := on l (Selector.pseudoClass v).
Definition pseudoElement (l : loc) (v : string) := on l (Selector.pseudoElement v).
Definition call (l : loc) (f : fname) (v : string) := on l (Selector.call f v).

(** [Selector.stringify]: the two resets of the object's own fields come
    first, then the assignment through [this.prototype], which throws when
    [prototype] was never assigned. *)
Definition stringify (l : loc) : M world string := λ w,
  match heap w !! l with
  | None => Throw w TypeError
  | Some this =>
      match Selector.stringify_own this with
      | Throw this' e => Throw (set_heap (<[l := this']> (heap w)) w) e
      | Ok this' res =>
          let w := set_heap (<[l := this']> (heap w)) w in
          match prototype this' with
          | None => Throw w TypeError
          | Some Builder => Ok (set_selectors [] w) res
          end
      end
  end.

End SelectorAt.

Module cssSelectorBuilder.

(** The facade as the module loads it. *)
Definition init : world := {| heap := []; selectors := []; splitters := [] |}.

(** [n] is reachable only once [n[f](v)] has returned: when that call
    throws, nothing of the store has changed. *)
Definition setNewSelector (v : string) (f : fname) : M world loc := λ w,
  match Selector.call f v Selector.new with
  | Throw _ e => Throw w e
  | Ok n _ =>
      let l := length (heap w) in
      Ok {| heap := heap w ++ [set_prototype (Some Builder) n];
            selectors := selectors w ++ [l];
            splitters := splitters w |} l
  end.

Definition element (v : string) := setNewSelector v KElement.
Definition id (v : string) := setNewSelector v KId.
Definition class (v : string) := setNewSelector v KClass.
Definition attr (v : string) := setNewSelector v KAttr.
Definition pseudoClass (v : string) := setNewSelector v KPseudoClass.
Definition pseudoElement (v : string) := setNewSelector v KPseudoElement.

(** [combine(a, b)], called with any further arguments [rest]. *)
Definition combine (a b : jsval) (rest : list jsval) : M world jsval := λ w,
  Ok (set_splitters (b :: splitters w) w) VFacade.

(** [if (sp) r += ` ${sp} `], for [sp = this.splitters[i]]. *)
Definition add_splitter (r : string) (sp : jsval) : string :=
  if truthy sp then r +:+ (" " +:+ to_string sp +:+ " ") else r.

(** The callback of [map], applied to the elements of the array that
    [this.selectors] held when [map] was called. *)
Fixpoint map_selectors (sels : list loc) (i : nat) : M world (list string) :=
  match sels with
  | [] => mret []
  | sel :: rest =>
      r ← SelectorAt.stringify sel;
      sp ← gets (λ w, default VUndefined (splitters w !! i));
      rs ← map_selectors rest (S i);
      mret (add_splitter r sp :: rs)
  end.

(** [reduce((a, b) => a + b)] with no initial value. *)
Definition reduce (l : list string) : M world string :=
  match l with
  | [] => throw TypeError
  | x :: r => mret (fold_left (λ a b, a +:+ b) r x)
  end.

Definition stringify : M world string :=
  sels ← gets selectors;
  strs ← map_selectors sels 0;
  res ← reduce strs;
  modify (set_selectors []) ;;
  modify (set_splitters []) ;;
  mret res.

End cssSelectorBuilder.

(** [e.stringify()] for a value [e]: only the two kinds of object have the
    method. *)
Definition stringify (e : jsval) : M world string :=
  match e with
  | VSel l => SelectorAt.stringify l
  | VFacade => cssSelectorBuilder.stringify
  | _ => throw TypeError
  end.

(** ** Histories of one [Selector] object

    What can happen to a [Selector] between its creation and a later call:
    fragment methods (returning or throwing), [stringify], and the
    assignment [n.prototype = this] of [setNewSelector]. *)
Inductive op :=
  | OCall (f : fname) (v : string)
  | OStringify
  | OPrototype.

Definition step (this : selector) (o : op) : selector :=
  match o with
  | OCall f v => state_of (Selector.call f v this)
  | OStringify => state_of (Selector.stringify_own this)
  | OPrototype => set_prototype (Some Builder) this
  end.

Definition run (ops : list op) (this : selector) : selector :=
  fold_left step ops this.

(** How many times the fragment method [k] was called in a history. *)
Fixpoint calls (k : fname) (ops : list op) : nat :=
  match ops with
  | [] => 0
  | OCall f _ :: r => (if decide (f = k) then 1 else 0) + calls k r
  | _ :: r => calls k r
  end.

(** ** The fragment rules, as the specification words them *)

(** Position in the canonical order. *)
Definition index (k : fname) : Z := indexOf orderRule (Some k).

(** The kinds that may occur once: the keys of the initial [unicCall]. *)
Definition unic (k : fname) : bool :=
  match k with
  | KElement | KId | KPseudoElement => true
  | KClass | KAttr | KPseudoClass => false
  end.

Definition prefix (k : fname) : string :=
  match k with
  | KElement => ""
  | KId => "#"
  | KClass => "."
  | KAttr => "["
  | KPseudoClass => ":"
  | KPseudoElement => "::"
  end.

Definition suffix (k : fname) : string :=
  match k with
  | KAttr => "]"
  | _ => ""
  end.

Definition fragment_text (fr : fname * string) : string :=
  prefix fr.1 +:+ fr.2 +:+ suffix fr.1.

Fixpoint concat_strings (l : list string) : string :=
  match l with
  | [] => ""
  | x :: r => x +:+ concat_strings r
  end.

(** Every fragment's index is at least its predecessor's. *)
Fixpoint ordered (ks : list fname) : bool :=
  match ks with
  | a :: r =>
      match r with
      | b :: _ => bool_decide (index a ≤ index b)%Z && ordered r
      | [] => true
      end
  | [] => true
  end.

(** How often [k] occurs in a sequence of kinds. *)
Fixpoint occurrences (k : fname) (ks : list fname) : nat :=
  match ks with
  | [] => 0
  | a :: r => (if decide (a = k) then 1 else 0) + occurrences k r
  end.

(** No singleton kind occurs twice. *)
Definition cardinality_ok (ks : list fname) : bool :=
  forallb (λ k, bool_decide (occurrences k ks ≤ 1))
    [KElement; KId; KPseudoElement].

Definition valid_sequence (fs : list (fname * string)) : bool :=
  ordered fs.*1 && cardinality_ok fs.*1.

(** ** Building a compound through the facade *)

(** [this.f1(v1).f2(v2)...], seen from the object itself. *)
Fixpoint appends (fs : list (fname * string)) : M selector unit :=
  match fs with
  | [] => mret tt
  | (f, v) :: r => Selector.call f v ;; appends r
  end.

(** [x.f1(v1).f2(v2)...] on the object at [l]. *)
Fixpoint chain (l : loc) (fs : list (fname * string)) : M world loc :=
  match fs with
  | [] => mret l
  | (f, v) :: r => SelectorAt.call l f v ;; chain l r
  end.

(** [cssSelectorBuilder.f(v).f1(v1).f2(v2)...]. *)
Definition build (f : fname) (v : string) (fs : list (fname * string)) : M world loc :=
  l ← cssSelectorBuilder.setNewSelector v f;
  chain l fs.

(** The state of a [Selector] admits the kinds [ks], in this order: the
    first is not before [last], [ks] is ordered, the counter of a singleton
    kind is a number that leaves room for the occurrences in [ks], and
    the counter of a repeatable kind is no number. *)
Definition fits (this : selector) (ks : list fname) : Prop :=
  (if ks is k :: _ then (indexOf orderRule (last this) ≤ index k)%Z else True)
  ∧ ordered ks = true
  ∧ (∀ k, unic k = true →
       ∃ n, unicCall this !! k = Some (Num n) ∧ n + occurrences k ks ≤ 1)
  ∧ (∀ k, unic k = false → ∀ n, unicCall this !! k ≠ Some (Num n)).

(** ** The scenarios of the specification *)

(** [builder.id('main').class('container').class('editable').stringify()] *)
Definition scenario_compound : M world string :=
  a ← cssSelectorBuilder.id "main";
  a ← SelectorAt.class a "container";
  a ← SelectorAt.class a "editable";
  stringify (VSel a).

(** The four compounds are created in the order A, B, C, D, then
    [combine] is called innermost first, and the result is serialized. *)
Definition scenario_combined : M world string :=
  a ← cssSelectorBuilder.element "div";
  a ← SelectorAt.id a "main";
  a ← SelectorAt.class a "container";
  a ← SelectorAt.class a "draggable";
  b ← cssSelectorBuilder.element "table";
  b ← SelectorAt.id b "data";
  c ← cssSelectorBuilder.element "tr";
  c ← SelectorAt.pseudoClass c "nth-of-type(even)";
  d ← cssSelectorBuilder.element "td";
  d ← SelectorAt.pseudoClass d "nth-of-type(even)";
  cd ← cssSelectorBuilder.combine (VSel c) (VStr " ") [VSel d];
  bcd ← cssSelectorBuilder.combine (VSel b) (VStr "~") [cd];
  abcd ← cssSelectorBuilder.combine (VSel a) (VStr "+") [bcd];
  stringify abcd.

(** The strings that the facade's [stringify] joins: for the [i]-th
    reference of [selectors], the accumulated string of its object, followed
    by the [i]-th splitter between spaces when there is a truthy one. *)
Fixpoint pieces (w : world) (sels : list loc) (i : nat) : list string :=
  match sels with
  | [] => []
  | l :: r =>
      cssSelectorBuilder.add_splitter
        (default "" (str <$> heap w !! l))
        (default VUndefined (splitters w !! i))
      :: pieces w r (S i)
  end.

(** ** Stores that the public methods produce *)

(** Every object of the store has had [prototype] assigned, and
    [selectors] refers to objects of the store, to none of them twice. *)
Definition wf (w : world) : bool :=
  forallb (λ this, bool_decide (prototype this = Some Builder)) (heap w)
  && forallb (λ l, bool_decide (l < length (heap w))) (selectors w)
  && bool_decide (NoDup (selectors w)).

(** One call of a public method, on the facade or on a [Selector] that the
    facade has returned. *)
Inductive action :=
  | ANew (f : fname) (v : string)
  | AAppend (l : loc) (f : fname) (v : string)
  | AStringify (e : jsval)
  | ACombine (a b : jsval) (rest : list jsval).

Definition perform (w : world) (a : action) : world :=
  match a with
  | ANew f v => state_of (cssSelectorBuilder.setNewSelector v f w)
  | AAppend l f v => state_of (SelectorAt.call l f v w)
  | AStringify e => state_of (stringify e w)
  | ACombine a b rest => state_of (cssSelectorBuilder.combine a b rest w)
  end.

Definition reachable (w : world) : Prop :=
  ∃ acts, w = fold_left perform acts cssSelectorBuilder.init.

(** The object is what some history makes of [Selector()]. *)
Definition has_history (this : selector) : Prop :=
  ∃ ops, this = run ops Selector.new.

(** ** Expressions of several compounds *)

(** A compound as its calls: the facade method that creates it, then the
    chained methods. *)
Definition compound : Type := (fname * string) * list (fname * string).

Definition compound_valid (c : compound) : bool := valid_sequence (c.1 :: c.2).

Definition compound_text (c : compound) : string :=
  concat_strings (fragment_text <$> c.1 :: c.2).

(** The compounds of an expression, created from left to right. *)
Fixpoint build_all (cs : list compound) : M world (list loc) :=
  match cs with
  | [] => mret []
  | c :: r =>
      l ← build c.1.1 c.1.2 c.2;
      ls ← build_all r;
      mret (l :: ls)
  end.

(** [combine(l1, b1, combine(l2, b2, ... ))]: the third argument is
    evaluated before the call it is passed to, so the innermost [combine]
    runs first. A single operand is the expression itself. *)
Fixpoint nest (ls : list loc) (bs : list jsval) : M world jsval :=
  match ls with
  | [] => mret VUndefined
  | l :: ls' =>
      match bs with
      | [] => mret (VSel l)
      | b :: bs' =>
          inner ← nest ls' bs';
          cssSelectorBuilder.combine (VSel l) b [inner]
      end
  end.

(** [combine(combine(A, b1, B), b2, C).stringify()], the three compounds
    created where the expression evaluates them. *)
Definition left_nested (ca cb cc : compound) (b1 b2 : jsval) : M world string :=
  a ← build ca.1.1 ca.1.2 ca.2;
  b ← build cb.1.1 cb.1.2 cb.2;
  ab ← cssSelectorBuilder.combine (VSel a) b1 [VSel b];
  c ← build cc.1.1 cc.1.2 cc.2;
  abc ← cssSelectorBuilder.combine ab b2 [VSel c];
  stringify abc.

(** The texts [ts] joined, the [i]-th followed by the [i]-th of [bs] between
    spaces when there is one and it is truthy. *)
Fixpoint interleave (ts : list string) (bs : list jsval) : string :=
  match ts with
  | [] => ""
  | t :: ts' =>
      cssSelectorBuilder.add_splitter t (default VUndefined (head bs))
      +:+ interleave ts' (tail bs)
  end.

(** The counters have the shape that [Selector()] gives them: a number for
    a singleton kind, no number for a repeatable kind. *)
Definition shaped (this : selector) : Prop :=
  (∀ k, unic k = true → ∃ n, unicCall this !! k = Some (Num n))
  ∧ (∀ k, unic k = false → ∀ n, unicCall this !! k ≠ Some (Num n)).

(** * Properties *)

(** ** Strings *)

Lemma append_cons (x : Ascii.ascii) (a b : string) :
  String x a +:+ b = String x (a +:+ b).
Proof. reflexivity. Qed.

Lemma append_assoc (a b c : string) : (a +:+ b) +:+ c = a +:+ (b +:+ c).
Proof.
  induction a as [|x a IH]; [reflexivity |].
  by rewrite !append_cons, IH.
Qed.

Lemma append_empty_r (a : string) : a +:+ "" = a.
Proof.
  induction a as [|x a IH]; [reflexivity |].
  by rewrite append_cons, IH.
Qed.

Lemma fold_left_append (l : list string) (x : string) :
  fold_left (λ a b, a +:+ b) l x = x +:+ concat_strings l.
Proof.
  revert x. induction l as [|y l IH]; intros x; cbn [fold_left concat_strings].
  - by rewrite append_empty_r.
  - by rewrite IH, append_assoc.
Qed.

(** ** One call of a fragment method *)

Section CallMeth.

Variables (v : string) (fName : fname) (addBefore addAfter : option string).
Variable this : selector.

(** The counter that [checkCall] stores, and the object once it is stored. *)
Let n := js_add1 (unicCall this !! fName).
Let counted := set_unicCall (<[fName := n]> (unicCall this)) this.

Lemma callMeth_duplicate :
  js_gt1 n = true →
  Selector.callMeth v fName addBefore addAfter this
  = Throw counted (Error msg_unique).
Proof.
  intros H. unfold Selector.callMeth, mbind, M_bind, Selector.checkCall.
  fold n. by rewrite H.
Qed.

Lemma callMeth_disorder :
  js_gt1 n = false →
  (index fName < indexOf orderRule (last this))%Z →
  Selector.callMeth v fName addBefore addAfter this
  = Throw (set_last (Some fName) counted) (Error msg_order).
Proof.
  intros H Hlt. unfold Selector.callMeth, mbind, M_bind, Selector.checkCall.
  fold n. rewrite H. unfold Selector.checkOrder. simpl.
  rewrite bool_decide_eq_false_2; [reflexivity |]. unfold index in Hlt. lia.
Qed.

Lemma callMeth_ok :
  js_gt1 n = false →
  (indexOf orderRule (last this) ≤ index fName)%Z →
  Selector.callMeth v fName addBefore addAfter this
  = Ok (set_str (λ s, ((s +:+ or_empty addBefore) +:+ v) +:+ or_empty addAfter)
          (set_last (Some fName) counted)) tt.
Proof.
  intros H Hle. unfold Selector.callMeth, mbind, M_bind, Selector.checkCall.
  fold n. rewrite H. unfold Selector.checkOrder. simpl.
  rewrite bool_decide_eq_true_2; [reflexivity |]. exact Hle.
Qed.

(** The three ways a call ends. *)
Lemma callMeth_cases :
  (js_gt1 n = true ∧
     Selector.callMeth v fName addBefore addAfter this
     = Throw counted (Error msg_unique))
  ∨ (js_gt1 n = false ∧ (index fName < indexOf orderRule (last this))%Z ∧
     Selector.callMeth v fName addBefore addAfter this
     = Throw (set_last (Some fName) counted) (Error msg_order))
  ∨ (js_gt1 n = false ∧ (indexOf orderRule (last this) ≤ index fName)%Z ∧
     Selector.callMeth v fName addBefore addAfter this
     = Ok (set_str (λ s, ((s +:+ or_empty addBefore) +:+ v) +:+ or_empty addAfter)
             (set_last (Some fName) counted)) tt).
Proof.
  destruct (js_gt1 n) eqn:H.
  - left. split; [done|]. by apply callMeth_duplicate.
  - right. destruct (decide (index fName < indexOf orderRule (last this))%Z).
    + left. split; [done|]. split; [done|]. by apply callMeth_disorder.
    + right. split; [done|]. split; [lia|]. apply callMeth_ok; [done | lia].
Qed.

End CallMeth.

(** [this[f](v)] is [callMeth] with the prefix and suffix of [f]. *)
Lemma call_callMeth (f : fname) (v : string) :
  Selector.call f v
  = Selector.callMeth v f
      (if decide (prefix f = "") then None else Some (prefix f))
      (if decide (suffix f = "") then None else Some (suffix f)).
Proof. by destruct f. Qed.

(** Whatever way a call ends, the counter of its kind has been stored, and
    neither [prototype] nor the counters of other kinds have changed. *)
Lemma call_unicCall (f : fname) (v : string) (this : selector) :
  unicCall (state_of (Selector.call f v this))
  = <[f := js_add1 (unicCall this !! f)]> (unicCall this).
Proof.
  rewrite call_callMeth.
  destruct (callMeth_cases v f
              (if decide (prefix f = "") then None else Some (prefix f))
              (if decide (suffix f = "") then None else Some (suffix f)) this)
    as [[_ ->] | [(_ & _ & ->) | (_ & _ & ->)]]; reflexivity.
Qed.

Lemma call_prototype (f : fname) (v : string) (this : selector) :
  prototype (state_of (Selector.call f v this)) = prototype this.
Proof.
  rewrite call_callMeth.
  destruct (callMeth_cases v f
              (if decide (prefix f = "") then None else Some (prefix f))
              (if decide (suffix f = "") then None else Some (suffix f)) this)
    as [[_ ->] | [(_ & _ & ->) | (_ & _ & ->)]]; reflexivity.
Qed.

(** ** Counters along a history *)

Definition bump (x : option num) : option num := Some (js_add1 x).

Lemma step_unicCall (this : selector) (o : op) (k : fname) :
  unicCall (step this o) !! k
  = Nat.iter (calls k [o]) bump (unicCall this !! k).
Proof.
  destruct o as [f v| |]; simpl; try reflexivity.
  rewrite call_unicCall, lookup_insert.
  destruct (decide (f = k)) as [->|]; reflexivity.
Qed.

Lemma calls_app (k : fname) (ops1 ops2 : list op) :
  calls k (ops1 ++ ops2) = calls k ops1 + calls k ops2.
Proof.
  induction ops1 as [|[f v| |] ops1 IH]; simpl; try done.
  rewrite IH. lia.
Qed.

Lemma run_unicCall (ops : list op) (this : selector) (k : fname) :
  unicCall (run ops this) !! k
  = Nat.iter (calls k ops) bump (unicCall this !! k).
Proof.
  revert this. induction ops as [|o ops IH]; intros this; [reflexivity |].
  change (run (o :: ops) this) with (run ops (step this o)).
  rewrite IH, step_unicCall.
  change (o :: ops) with ([o] ++ ops).
  rewrite calls_app, Nat.add_comm, Nat.iter_add. reflexivity.
Qed.

Lemma iter_bump_num (n m : nat) :
  Nat.iter n bump (Some (Num m)) = Some (Num (n + m)).
Proof. induction n as [|n IH]; simpl; [reflexivity | by rewrite IH]. Qed.

Lemma iter_bump_nan (n : nat) : Nat.iter n bump (Some NaN) = Some NaN.
Proof. induction n as [|n IH]; simpl; [reflexivity | by rewrite IH]. Qed.

Lemma iter_bump_undefined (n : nat) :
  Nat.iter n bump None = if n is 0 then None else Some NaN.
Proof.
  destruct n as [|n]; [reflexivity |].
  rewrite Nat.iter_succ_r. apply iter_bump_nan.
Qed.

(** The counters of a [Selector] after any history: a singleton kind counts
    the calls of its method, a repeatable kind has no number. *)
Lemma history_unicCall (ops : list op) (k : fname) :
  unicCall (run ops Selector.new) !! k
  = if unic k then Some (Num (calls k ops))
    else if calls k ops is 0 then None else Some NaN.
Proof.
  rewrite run_unicCall.
  destruct k; simpl unic; cbv iota;
    first [ change (unicCall Selector.new !! _) with (Some (Num 0));
            rewrite iter_bump_num; f_equal; f_equal; lia
          | change (unicCall Selector.new !! _) with (@None num);
            apply iter_bump_undefined ].
Qed.

(** The counter check of the next call, after a history from [Selector()]. *)
Lemma history_check (ops : list op) (k : fname) :
  js_gt1 (js_add1 (unicCall (run ops Selector.new) !! k))
  = unic k && bool_decide (0 < calls k ops).
Proof.
  rewrite history_unicCall. destruct (unic k); simpl.
  - apply bool_decide_ext. lia.
  - by destruct (calls k ops).
Qed.

Lemma run_app (ops1 ops2 : list op) (this : selector) :
  run (ops1 ++ ops2) this = run ops2 (run ops1 this).
Proof. apply fold_left_app. Qed.

(** ** A call that throws *)

(** What a fragment method that throws has changed: it has appended nothing
    to the accumulated string and has left [prototype] alone, but the
    counter of the attempted kind has been stored incremented, and when the
    error is the order error, [last] is the attempted kind (it is unchanged
    when the error is the duplicate error). *)
Theorem failed_append_effect (v : string) (fName : fname)
    (addBefore addAfter : option string) (this this' : selector) (e : exn) :
  Selector.callMeth v fName addBefore addAfter this = Throw this' e →
  str this' = str this
  ∧ prototype this' = prototype this
  ∧ unicCall this' = <[fName := js_add1 (unicCall this !! fName)]> (unicCall this)
  ∧ ((e = Error msg_unique ∧ last this' = last this)
     ∨ (e = Error msg_order ∧ last this' = Some fName)).
Proof.
  destruct (callMeth_cases v fName addBefore addAfter this)
    as [[_ ->] | [(_ & _ & ->) | (_ & _ & ->)]]; intros H.
  - injection H as <- <-. repeat split. by left.
  - injection H as <- <-. repeat split. by right.
  - discriminate H.
Qed.

Lemma failed_append_effect_witness :
  let this := state_of (Selector.class "a" Selector.new) in
  let this' := state_of (Selector.element "b" this) in
  Selector.callMeth "b" KElement None None this = Throw this' (Error msg_order)
  ∧ str this' = ".a"
  ∧ last this' = Some KElement.
Proof.
  split; [reflexivity |].
  destruct (failed_append_effect "b" KElement None None
              (state_of (Selector.class "a" Selector.new))
              (state_of (Selector.element "b"
                 (state_of (Selector.class "a" Selector.new))))
              (Error msg_order) eq_refl)
    as (Hstr & _ & _ & [[Hne _] | [_ Hlast]]).
  - discriminate Hne.
  - split; [rewrite Hstr; reflexivity | exact Hlast].
Defined.

(** [class("a")] then [element("b")] throws the order error, and the object
    is not what it was before the call: [last] has become ['element'] and
    the counter of ['element'] is 1. *)
Lemma failed_append_changes_state :
  let this := state_of (Selector.class "a" Selector.new) in
  let this' := state_of (Selector.element "b" this) in
  thrown (Selector.element "b" this) = Some (Error msg_order)
  ∧ last this = Some KClass ∧ last this' = Some KElement
  ∧ unicCall this !! KElement = Some (Num 0)
  ∧ unicCall this' !! KElement = Some (Num 1)
  ∧ this' ≠ this.
Proof. repeat split. discriminate. Qed.

(** What the stored [last] then allows: after the [element] that threw, [id]
    is accepted behind a class, and the compound serializes out of order. *)
Example failed_append_then_out_of_order :
  let this := run [OCall KClass "a"; OCall KElement "b"] Selector.new in
  thrown (Selector.id "x" this) = None
  ∧ str (state_of (Selector.id "x" this)) = ".a#x".
Proof. split; reflexivity. Qed.

(** C3: a failed append is not without effect, and what it leaves behind
    breaks the order that the error of [checkOrder] itself states. On the
    compound built by [class("a")], [element("b")] throws the order error
    and appends nothing, but the object has changed: [checkOrder] has
    assigned ['element'] to [last] before throwing, and [checkCall] has
    counted the rejected [element]. [id("x")], which the compound rejected
    before the failed call, is accepted after it and gives [".a#x"], an id
    behind a class; and a later [element] throws the duplicate error although
    the string holds no element. *)
Theorem failed_append_corrupts_compound :
  let this := state_of (Selector.class "a" Selector.new) in
  let this' := state_of (Selector.element "b" this) in
  this = MkSelector ".a" (Some KClass)
           (<[KClass := NaN]> (unicCall Selector.new)) None
  ∧ Selector.element "b" this = Throw this' (Error msg_order)
  ∧ this' = MkSelector ".a" (Some KElement)
              (<[KElement := Num 1]> (<[KClass := NaN]> (unicCall Selector.new)))
              None
  ∧ this' ≠ this
  ∧ thrown (Selector.id "x" this) = Some (Error msg_order)
  ∧ thrown (Selector.id "x" this') = None
  ∧ str (state_of (Selector.id "x" this')) = ".a#x"
  ∧ thrown (Selector.element "c" this') = Some (Error msg_unique).
Proof.
  repeat split; try reflexivity. intros H. by injection H.
Qed.

(** ** The cardinality rule *)

(** C4: once a call of the method of a singleton kind ([element], [id],
    [pseudoElement]) has returned on a [Selector], every later call of the
    same method on it throws the duplicate error, whatever happened to the
    object before, in between, and with whatever arguments. *)
Theorem duplicate_singleton_fails (ops0 ops1 : list op) (k : fname)
    (v v' : string) (this1 : selector) :
  unic k = true →
  Selector.call k v (run ops0 Selector.new) = Ok this1 tt →
  thrown (Selector.call k v' (run ops1 this1)) = Some (Error msg_unique).
Proof.
  intros Hk Hcall.
  assert (run ops1 this1 = run (ops0 ++ OCall k v :: ops1) Selector.new) as ->.
  { rewrite run_app. change (run (OCall k v :: ops1) ?s)
      with (run ops1 (state_of (Selector.call k v s))).
    by rewrite Hcall. }
  rewrite call_callMeth, callMeth_duplicate; [reflexivity |].
  rewrite history_check, Hk, calls_app. simpl.
  rewrite decide_True by done. apply bool_decide_eq_true. lia.
Qed.

Lemma duplicate_singleton_fails_witness :
  let this1 := state_of (Selector.id "main" (run [OCall KElement "div"] Selector.new)) in
  unic KId = true
  ∧ Selector.call KId "main" (run [OCall KElement "div"] Selector.new) = Ok this1 tt
  ∧ thrown (Selector.call KId "other"
              (run [OCall KClass "c"; OStringify] this1))
    = Some (Error msg_unique).
Proof.
  split; [reflexivity |]. split; [reflexivity |].
  apply (duplicate_singleton_fails [OCall KElement "div"]
           [OCall KClass "c"; OStringify] KId "main" "other");
    reflexivity.
Defined.

(** ** The order rule *)




(** ** Valid fragment sequences *)

Lemma index_nonneg (k : fname) : (0 ≤ index k)%Z.
Proof. by destruct k. Qed.

Lemma or_empty_prefix (f : fname) :
  or_empty (if decide (prefix f = "") then None else Some (prefix f)) = prefix f.
Proof. by destruct f. Qed.

Lemma or_empty_suffix (f : fname) :
  or_empty (if decide (suffix f = "") then None else Some (suffix f)) = suffix f.
Proof. by destruct f. Qed.

Lemma fits_set_prototype (p : option facade) (this : selector) (ks : list fname) :
  fits this ks → fits (set_prototype p this) ks.
Proof. intros H. exact H. Qed.

Lemma fits_new (ks : list fname) :
  ordered ks = true → cardinality_ok ks = true → fits Selector.new ks.
Proof.
  intros Hord Hcard. split; [| split; [done | split]].
  - destruct ks as [|k ks]; [done |].
    change (indexOf orderRule (last Selector.new)) with (-1)%Z.
    pose proof (index_nonneg k). lia.
  - intros k Hk. exists 0. unfold cardinality_ok in Hcard. simpl in Hcard.
    repeat (apply andb_prop in Hcard as [?%bool_decide_eq_true Hcard]).
    destruct k; try discriminate Hk; split; try reflexivity; simpl; lia.
  - intros k Hk n. by destruct k.
Qed.

(** One admitted call returns, appends the text of its fragment, and leaves
    a state that admits the rest. *)
Lemma fits_step (f : fname) (v : string) (ks : list fname) (this : selector) :
  fits this (f :: ks) →
  ∃ this', Selector.call f v this = Ok this' tt
    ∧ fits this' ks
    ∧ str this' = str this +:+ fragment_text (f, v)
    ∧ prototype this' = prototype this.
Proof.
  intros (Hidx & Hord & Hunic & Hrep).
  assert (js_gt1 (js_add1 (unicCall this !! f)) = false) as Hcheck.
  { destruct (unic f) eqn:Hf.
    - destruct (Hunic f Hf) as (n & -> & Hn). simpl in Hn.
      rewrite decide_True in Hn by done. simpl.
      apply bool_decide_eq_false. lia.
    - specialize (Hrep f Hf).
      destruct (unicCall this !! f) as [[n|]|]; [by destruct (Hrep n) | done | done]. }
  rewrite call_callMeth, callMeth_ok by done.
  eexists. split; [reflexivity |]. split; [| split].
  - split; [| split; [| split]].
    + destruct ks as [|k ks]; [done |]. simpl in Hord.
      apply andb_prop in Hord as [Hle%bool_decide_eq_true _]. exact Hle.
    + destruct ks as [|k ks]; [done |]. simpl in Hord.
      by apply andb_prop in Hord as [_ Hord].
    + intros k Hk. simpl. rewrite lookup_insert.
      destruct (Hunic k Hk) as (n & Hn & Hle). simpl in Hle.
      destruct (decide (f = k)) as [->|Hne].
      * rewrite Hn. exists (S n). split; [reflexivity | lia].
      * exists n. split; [exact Hn | lia].
    + intros k Hk n. simpl. rewrite lookup_insert.
      destruct (decide (f = k)) as [->|Hne]; [| by apply Hrep].
      specialize (Hrep k Hk).
      destruct (unicCall this !! k) as [[m|]|]; [by destruct (Hrep m) | done | done].
  - simpl. rewrite or_empty_prefix, or_empty_suffix.
    unfold fragment_text. simpl. by rewrite !append_assoc.
  - reflexivity.
Qed.

Lemma appends_fits (fs : list (fname * string)) (this : selector) :
  fits this fs.*1 →
  ∃ this', appends fs this = Ok this' tt
    ∧ str this' = str this +:+ concat_strings (fragment_text <$> fs)
    ∧ prototype this' = prototype this.
Proof.
  revert this. induction fs as [|[f v] fs IH]; intros this Hfits.
  - exists this. split; [reflexivity |]. split; [| reflexivity].
    simpl. by rewrite append_empty_r.
  - destruct (fits_step f v _ _ Hfits) as (this1 & Hcall & Hfits1 & Hstr1 & Hp1).
    destruct (IH this1 Hfits1) as (this' & Happ & Hstr & Hp).
    exists this'. split; [| split].
    + simpl. unfold mbind, M_bind. by rewrite Hcall.
    + rewrite Hstr, Hstr1. simpl. by rewrite append_assoc.
    + by rewrite Hp.
Qed.

(** ** Methods run on the store *)

Lemma set_heap_id (w : world) : set_heap (heap w) w = w.
Proof. by destruct w. Qed.

Lemma on_lookup (l : loc) (m : M selector unit) (w : world) (this : selector) :
  heap w !! l = Some this →
  on l m w
  = match m this with
    | Ok this' _ => Ok (set_heap (<[l := this']> (heap w)) w) l
    | Throw this' e => Throw (set_heap (<[l := this']> (heap w)) w) e
    end.
Proof. intros H. unfold on. by rewrite H. Qed.

Lemma chain_appends (l : loc) (fs : list (fname * string)) (w : world)
    (this : selector) :
  heap w !! l = Some this →
  chain l fs w
  = match appends fs this with
    | Ok this' _ => Ok (set_heap (<[l := this']> (heap w)) w) l
    | Throw this' e => Throw (set_heap (<[l := this']> (heap w)) w) e
    end.
Proof.
  revert w this. induction fs as [|[f v] fs IH]; intros w this Hl.
  - simpl. unfold mret, M_ret. by rewrite list_insert_id, set_heap_id.
  - simpl. unfold mbind, M_bind, SelectorAt.call.
    rewrite (on_lookup _ _ _ _ Hl).
    destruct (Selector.call f v this) as [this1 []|this1 e]; [| reflexivity].
    rewrite (IH _ this1).
    + simpl. destruct (appends fs this1) as [this' ?|this' ?];
        by rewrite list_insert_insert_eq.
    + simpl. apply list_lookup_insert_eq. by eapply lookup_lt_Some.
Qed.

Lemma setNewSelector_ok (v : string) (f : fname) (w : world) (n : selector) :
  Selector.call f v Selector.new = Ok n tt →
  cssSelectorBuilder.setNewSelector v f w
  = Ok {| heap := heap w ++ [set_prototype (Some Builder) n];
          selectors := selectors w ++ [length (heap w)];
          splitters := splitters w |} (length (heap w)).
Proof. intros H. unfold cssSelectorBuilder.setNewSelector. by rewrite H. Qed.

(** A fresh [Selector] accepts any one fragment. *)
Lemma call_new (f : fname) (v : string) :
  Selector.call f v Selector.new
  = Ok {| str := fragment_text (f, v);
          last := Some f;
          unicCall := <[f := js_add1 (unicCall Selector.new !! f)]>
                        (unicCall Selector.new);
          prototype := None |} tt.
Proof.
  rewrite call_callMeth, callMeth_ok.
  - simpl. rewrite or_empty_prefix, or_empty_suffix. by destruct f.
  - by destruct f.
  - change (indexOf orderRule (last Selector.new)) with (-1)%Z.
    pose proof (index_nonneg f). lia.
Qed.

Lemma stringify_lookup (l : loc) (w : world) (this : selector) :
  heap w !! l = Some this →
  prototype this = Some Builder →
  SelectorAt.stringify l w
  = Ok {| heap := <[l := set_last None (set_str (λ _, "") this)]> (heap w);
          selectors := [];
          splitters := splitters w |} (str this).
Proof.
  intros Hl Hp. unfold SelectorAt.stringify. rewrite Hl. simpl. by rewrite Hp.
Qed.

(** Building a compound from a valid sequence and serializing it. *)
Lemma build_stringify (f : fname) (v : string) (fs : list (fname * string))
    (w : world) :
  valid_sequence ((f, v) :: fs) = true →
  ∃ w', (l ← build f v fs; stringify (VSel l)) w
        = Ok w' (concat_strings (fragment_text <$> (f, v) :: fs))
    ∧ selectors w' = [] ∧ splitters w' = splitters w.
Proof.
  intros [Hord Hcard]%andb_prop.
  pose proof (fits_new _ Hord Hcard) as Hfits.
  destruct (fits_step f v _ _ Hfits) as (n & Hcall & Hfits1 & Hstr1 & Hp1).
  destruct (appends_fits fs (set_prototype (Some Builder) n)) as (this' & Happ & Hstr & Hp).
  { by apply fits_set_prototype. }
  unfold build, mbind, M_bind.
  rewrite (setNewSelector_ok _ _ _ _ Hcall).
  erewrite chain_appends; last first.
  { simpl. rewrite lookup_app_r by lia. by rewrite Nat.sub_diag. }
  rewrite Happ. simpl.
  assert (str this' = concat_strings (fragment_text <$> (f, v) :: fs)) as Hres.
  { rewrite Hstr. simpl. rewrite Hstr1. reflexivity. }
  erewrite stringify_lookup; [| | exact Hp].
  - rewrite Hres. eexists. split; [reflexivity |]. split; reflexivity.
  - simpl. apply list_lookup_insert_eq. rewrite length_app. simpl. lia.
Qed.

(** C6: for every sequence of fragments that respects the canonical order
    and the cardinality rule, building the compound through the facade and
    serializing it returns the fragments' texts, each between the prefix and
    the suffix of its kind, concatenated in the order of the calls. *)
Theorem valid_sequence_serialized (f : fname) (v : string)
    (fs : list (fname * string)) (w : world) :
  valid_sequence ((f, v) :: fs) = true →
  value_of ((l ← build f v fs; stringify (VSel l)) w)
  = Some (concat_strings (fragment_text <$> (f, v) :: fs)).
Proof.
  intros Hvalid.
  destruct (build_stringify f v fs w Hvalid) as (w' & -> & _). reflexivity.
Qed.

Lemma valid_sequence_serialized_witness :
  valid_sequence [(KElement, "a"); (KAttr, "href"); (KPseudoClass, "focus")]
  = true
  ∧ value_of ((l ← build KElement "a"
                     [(KAttr, "href"); (KPseudoClass, "focus")];
               stringify (VSel l)) cssSelectorBuilder.init)
    = Some "a[href]:focus".
Proof.
  split; [reflexivity |].
  apply (valid_sequence_serialized KElement "a"
           [(KAttr, "href"); (KPseudoClass, "focus")]
           cssSelectorBuilder.init).
  reflexivity.
Defined.

(** ** The single-compound scenario *)

Lemma lookup_new_object (h : list selector) (n : selector) :
  (h ++ [n]) !! length h = Some n.
Proof. rewrite lookup_app_r by lia. by rewrite Nat.sub_diag. Qed.

Lemma insert_new_object (h : list selector) (n n' : selector) :
  <[length h := n']> (h ++ [n]) = h ++ [n'].
Proof.
  rewrite insert_app_r_alt by lia. by rewrite Nat.sub_diag.
Qed.

(** Evaluate a fragment method on a closed object. *)
Ltac eval_call :=
  match goal with
  | |- context [Selector.callMeth ?v ?f ?b ?a ?this] =>
      let r := eval vm_compute in (Selector.callMeth v f b a this) in
      change (Selector.callMeth v f b a this) with r
  end.

(** C7: [id("main")], then [class("container")], then [class("editable")],
    then [stringify], returns ["#main.container.editable"], whatever the
    facade held before. *)
Theorem scenario_compound_result (w : world) :
  value_of (scenario_compound w) = Some "#main.container.editable".
Proof.
  unfold scenario_compound, mbind, M_bind, cssSelectorBuilder.id.
  rewrite (setNewSelector_ok _ _ _ _ (call_new _ _)).
  unfold SelectorAt.class, Selector.class.
  do 2 (erewrite on_lookup by apply lookup_new_object;
        eval_call; cbn [heap set_heap]; rewrite insert_new_object).
  cbn [stringify].
  erewrite stringify_lookup; cycle 1.
  { apply lookup_new_object. }
  { reflexivity. }
  reflexivity.
Qed.

(** ** The invariant of the store *)

Lemma wf_spec (w : world) :
  wf w = true ↔
  Forall (λ this, prototype this = Some Builder) (heap w)
  ∧ Forall (λ l, l < length (heap w)) (selectors w)
  ∧ NoDup (selectors w).
Proof.
  unfold wf.
  rewrite !andb_true_iff, !forallb_forall, !Forall_forall, bool_decide_eq_true.
  split.
  - intros [[H1 H2] H3]. split; [| split]; [| | exact H3]; intros x Hx.
    + apply list_elem_of_In, H1 in Hx. by apply bool_decide_eq_true in Hx.
    + apply list_elem_of_In, H2 in Hx. by apply bool_decide_eq_true in Hx.
  - intros (H1 & H2 & H3). split; [split |]; [| | exact H3]; intros x Hx.
    + apply bool_decide_eq_true, H1, list_elem_of_In, Hx.
    + apply bool_decide_eq_true, H2, list_elem_of_In, Hx.
Qed.

Lemma wf_lookup (w : world) (l : loc) :
  wf w = true → l < length (heap w) →
  ∃ this, heap w !! l = Some this ∧ prototype this = Some Builder.
Proof.
  intros [Hh _]%wf_spec Hl.
  destruct (lookup_lt_is_Some_2 _ _ Hl) as [this Hthis].
  exists this. split; [done |].
  by eapply (Forall_lookup_1 _ _ _ _ Hh).
Qed.

Lemma wf_init : wf cssSelectorBuilder.init = true.
Proof. reflexivity. Qed.

Lemma wf_insert (w : world) (l : loc) (this : selector) (sels : list loc) :
  wf w = true → prototype this = Some Builder →
  (sels = selectors w ∨ sels = []) →
  wf {| heap := <[l := this]> (heap w); selectors := sels;
        splitters := splitters w |} = true.
Proof.
  intros (Hh & Hs & Hnd)%wf_spec Hp Hsels. apply wf_spec. simpl.
  split; [| split].
  - by apply Forall_insert.
  - rewrite length_insert. by destruct Hsels as [-> | ->].
  - destruct Hsels as [-> | ->]; [done | apply NoDup_nil_2].
Qed.

Lemma wf_setNewSelector (v : string) (f : fname) (w : world) :
  wf w = true →
  wf (state_of (cssSelectorBuilder.setNewSelector v f w)) = true.
Proof.
  intros Hw. rewrite (setNewSelector_ok _ _ _ _ (call_new _ _)).
  apply wf_spec in Hw as (Hh & Hs & Hnd). apply wf_spec. simpl.
  split; [| split].
  - apply Forall_app. split; [done |]. by apply Forall_singleton.
  - rewrite length_app. simpl. apply Forall_app. split.
    + eapply Forall_impl; [exact Hs |]. simpl. lia.
    + apply Forall_singleton. lia.
  - apply NoDup_app. split; [done |]. split; [| apply NoDup_singleton].
    intros l Hl ->%list_elem_of_singleton.
    rewrite Forall_forall in Hs. specialize (Hs _ Hl). lia.
Qed.

Lemma wf_call (l : loc) (f : fname) (v : string) (w : world) :
  wf w = true → wf (state_of (SelectorAt.call l f v w)) = true.
Proof.
  intros Hw. unfold SelectorAt.call, on.
  destruct (heap w !! l) as [this|] eqn:Hl; [| done].
  assert (prototype this = Some Builder) as Hp.
  { apply wf_spec in Hw as [Hh _]. by eapply (Forall_lookup_1 _ _ _ _ Hh). }
  pose proof (call_prototype f v this) as Hp'.
  destruct (Selector.call f v this) as [this' ?|this' ?]; simpl in *;
    apply (wf_insert w l this' (selectors w)); try done;
    try congruence; by left.
Qed.

Lemma wf_selector_stringify (l : loc) (w : world) :
  wf w = true → wf (state_of (SelectorAt.stringify l w)) = true.
Proof.
  intros Hw. unfold SelectorAt.stringify.
  destruct (heap w !! l) as [this|] eqn:Hl; [| done].
  assert (prototype this = Some Builder) as Hp.
  { apply wf_spec in Hw as [Hh _]. by eapply (Forall_lookup_1 _ _ _ _ Hh). }
  simpl. rewrite Hp. simpl.
  apply (wf_insert w l _ []); try done. by right.
Qed.

Lemma wf_combine (a b : jsval) (rest : list jsval) (w : world) :
  wf w = true → wf (state_of (cssSelectorBuilder.combine a b rest w)) = true.
Proof. intros Hw. exact Hw. Qed.

(** ** The facade's [stringify] *)

(** The callback returns for every reference into the store; it leaves
    [splitters] and the size of the store as they were. *)
Lemma map_selectors_ok (sels : list loc) (i : nat) (w : world) :
  wf w = true →
  Forall (λ l, l < length (heap w)) sels →
  ∃ w' strs, cssSelectorBuilder.map_selectors sels i w = Ok w' strs
    ∧ wf w' = true
    ∧ length strs = length sels
    ∧ splitters w' = splitters w
    ∧ length (heap w') = length (heap w)
    ∧ selectors w' = (if sels is [] then selectors w else []).
Proof.
  revert i w. induction sels as [|l sels IH]; intros i w Hw Hsels.
  - exists w, []. by repeat split.
  - apply Forall_cons in Hsels as [Hl Hsels].
    destruct (wf_lookup w l Hw Hl) as (this & Hthis & Hp).
    pose proof (wf_selector_stringify l w Hw) as Hw1.
    simpl. unfold mbind, M_bind.
    rewrite (stringify_lookup l w this Hthis Hp) in Hw1 |- *.
    simpl in Hw1. unfold gets at 1. cbn [splitters].
    set (w1 := {| heap := _ |}) in *.
    destruct (IH (S i) w1 Hw1) as (w' & strs & -> & Hw' & Hlen & Hsp & Hh & Hsel).
    { subst w1. simpl. by rewrite length_insert. }
    eexists _, _. split; [reflexivity |].
    split; [done |]. split; [simpl; by rewrite Hlen |].
    split; [by rewrite Hsp |].
    split; [rewrite Hh; subst w1; simpl; by rewrite length_insert |].
    rewrite Hsel. by destruct sels.
Qed.

Lemma facade_stringify_empty (w : world) :
  selectors w = [] → cssSelectorBuilder.stringify w = Throw w TypeError.
Proof.
  intros H. unfold cssSelectorBuilder.stringify, mbind, M_bind, gets.
  by rewrite H.
Qed.

Lemma facade_stringify_ok (w : world) :
  wf w = true → selectors w ≠ [] →
  ∃ w' strs,
    cssSelectorBuilder.map_selectors (selectors w) 0 w = Ok w' strs
    ∧ cssSelectorBuilder.stringify w
      = Ok {| heap := heap w'; selectors := []; splitters := [] |}
           (concat_strings strs)
    ∧ wf w' = true.
Proof.
  intros Hw Hne.
  destruct (map_selectors_ok (selectors w) 0 w Hw) as
    (w' & strs & Hmap & Hw' & Hlen & _).
  { by apply wf_spec in Hw as (_ & Hs & _). }
  exists w', strs. split; [done |]. split; [| done].
  unfold cssSelectorBuilder.stringify, mbind, M_bind, gets. rewrite Hmap.
  destruct strs as [|x strs].
  - destruct (selectors w); [done | discriminate Hlen].
  - simpl. unfold mret, M_ret. by rewrite fold_left_append.
Qed.

Lemma wf_facade_stringify (w : world) :
  wf w = true → wf (state_of (cssSelectorBuilder.stringify w)) = true.
Proof.
  intros Hw. destruct (selectors w) as [|l sels] eqn:Hsels.
  - by rewrite facade_stringify_empty.
  - destruct (facade_stringify_ok w Hw) as (w' & strs & _ & -> & Hw').
    { by rewrite Hsels. }
    apply wf_spec in Hw' as [Hh _]. apply wf_spec. simpl. split; [done |].
    split; [apply Forall_nil_2 | apply NoDup_nil_2].
Qed.

Lemma wf_stringify (e : jsval) (w : world) :
  wf w = true → wf (state_of (stringify e w)) = true.
Proof.
  intros Hw. destruct e; try exact Hw.
  - by apply wf_selector_stringify.
  - by apply wf_facade_stringify.
Qed.

Lemma wf_perform (w : world) (a : action) :
  wf w = true → wf (perform w a) = true.
Proof.
  intros Hw. destruct a; simpl.
  - by apply wf_setNewSelector.
  - by apply wf_call.
  - by apply wf_stringify.
  - exact (wf_combine a b rest w Hw).
Qed.

Lemma reachable_wf (w : world) : reachable w → wf w = true.
Proof.
  intros [acts ->]. generalize wf_init.
  generalize cssSelectorBuilder.init. induction acts as [|a acts IH]; intros w Hw.
  - exact Hw.
  - simpl. by apply IH, wf_perform.
Qed.

(** ** Objects of the store and their histories *)

Section HeapInvariant.

Variable P : selector → Prop.
Hypothesis P_stringify : ∀ this, P this → P (state_of (Selector.stringify_own this)).

Lemma selector_stringify_Forall (l : loc) (w : world) :
  Forall P (heap w) → Forall P (heap (state_of (SelectorAt.stringify l w))).
Proof.
  intros Hh. unfold SelectorAt.stringify.
  destruct (heap w !! l) as [this|] eqn:Hl; [| done].
  pose proof (Forall_lookup_1 _ _ _ _ Hh Hl) as Hthis.
  apply P_stringify in Hthis. simpl in Hthis |- *.
  destruct (prototype this) as [[]|]; simpl; by apply Forall_insert.
Qed.

Lemma map_selectors_Forall (sels : list loc) (i : nat) (w : world) :
  Forall P (heap w) →
  Forall P (heap (state_of (cssSelectorBuilder.map_selectors sels i w))).
Proof.
  revert i w. induction sels as [|l sels IH]; intros i w Hh; [done |].
  pose proof (selector_stringify_Forall l w Hh) as H1.
  simpl. unfold mbind, M_bind.
  destruct (SelectorAt.stringify l w) as [w1 r|w1 e]; [| done].
  unfold gets at 1. specialize (IH (S i) w1 H1).
  by destruct (cssSelectorBuilder.map_selectors sels (S i) w1).
Qed.

Lemma facade_stringify_Forall (w : world) :
  Forall P (heap w) →
  Forall P (heap (state_of (cssSelectorBuilder.stringify w))).
Proof.
  intros Hh. pose proof (map_selectors_Forall (selectors w) 0 w Hh) as H1.
  unfold cssSelectorBuilder.stringify, mbind, M_bind, gets.
  destruct (cssSelectorBuilder.map_selectors (selectors w) 0 w)
    as [w1 strs|w1 e]; [| done].
  by destruct strs.
Qed.

End HeapInvariant.

Lemma has_history_step (this : selector) (o : op) :
  has_history this → has_history (step this o).
Proof.
  intros [ops ->]. exists (ops ++ [o]). by rewrite run_app.
Qed.

(** Every object of a store that the public methods produce has a history:
    what is proved of histories holds of the compounds of the builder. *)
Lemma reachable_history (w : world) :
  reachable w → Forall has_history (heap w).
Proof.
  intros [acts ->].
  assert (Forall has_history (heap cssSelectorBuilder.init)) as H0
    by apply Forall_nil_2.
  revert H0. generalize cssSelectorBuilder.init.
  induction acts as [|a acts IH]; intros w Hh; [exact Hh |].
  simpl. apply IH. clear IH acts.
  destruct a as [f v|l f v|e|a b rest]; simpl.
  - rewrite (setNewSelector_ok _ _ _ _ (call_new _ _)). simpl.
    apply Forall_app. split; [done |]. apply Forall_singleton.
    exists [OCall f v; OPrototype]. unfold run. simpl. by rewrite call_new.
  - unfold SelectorAt.call, on.
    destruct (heap w !! l) as [this|] eqn:Hl; [| done].
    pose proof (has_history_step this (OCall f v)
                  (Forall_lookup_1 _ _ _ _ Hh Hl)) as Hstep.
    simpl in Hstep.
    destruct (Selector.call f v this); simpl in *; by apply Forall_insert.
  - destruct e; try done.
    + apply selector_stringify_Forall; [| done].
      intros this. apply (has_history_step this OStringify).
    + apply facade_stringify_Forall; [| done].
      intros this. apply (has_history_step this OStringify).
  - done.
Qed.

(** What the callback returns when no reference occurs twice. *)
Lemma map_selectors_pieces (sels : list loc) (i : nat) (w : world) :
  wf w = true →
  Forall (λ l, l < length (heap w)) sels →
  NoDup sels →
  value_of (cssSelectorBuilder.map_selectors sels i w) = Some (pieces w sels i).
Proof.
  revert i w. induction sels as [|l sels IH]; intros i w Hw Hsels Hnd.
  - reflexivity.
  - apply Forall_cons in Hsels as [Hl Hsels].
    apply NoDup_cons in Hnd as [Hnotin Hnd].
    destruct (wf_lookup w l Hw Hl) as (this & Hthis & Hp).
    pose proof (wf_selector_stringify l w Hw) as Hw1.
    simpl. unfold mbind, M_bind.
    rewrite (stringify_lookup l w this Hthis Hp) in Hw1 |- *.
    simpl in Hw1. unfold gets at 1. cbn [splitters].
    set (w1 := {| heap := _ |}) in *.
    assert (Forall (λ l, l < length (heap w1)) sels) as Hsels1.
    { subst w1. simpl. by rewrite length_insert. }
    specialize (IH (S i) w1 Hw1 Hsels1 Hnd).
    destruct (cssSelectorBuilder.map_selectors sels (S i) w1) as [w' strs|];
      [| discriminate IH].
    simpl in IH |- *. injection IH as ->. rewrite Hthis. simpl.
    f_equal. f_equal.
    clear -Hnotin. revert i. induction sels as [|l' sels IH]; intros i; [done |].
    apply not_elem_of_cons in Hnotin as [Hne Hnotin].
    simpl. rewrite list_lookup_insert_ne by done. f_equal. by apply IH.
Qed.

(** The facade's [stringify] joins the pieces of the selectors in the order
    of their creation. *)
Lemma facade_stringify_value (w : world) :
  wf w = true → selectors w ≠ [] →
  value_of (cssSelectorBuilder.stringify w)
  = Some (concat_strings (pieces w (selectors w) 0)).
Proof.
  intros Hw Hne.
  destruct (facade_stringify_ok w Hw Hne) as (w' & strs & Hmap & -> & _).
  assert (value_of (cssSelectorBuilder.map_selectors (selectors w) 0 w)
          = Some (pieces w (selectors w) 0)) as Hval.
  { pose proof Hw as (_ & Hs & Hnd)%wf_spec.
    by apply map_selectors_pieces. }
  rewrite Hmap in Hval. simpl in Hval. injection Hval as ->. reflexivity.
Qed.

(** ** [Selector.stringify] *)



(** C2, as amended: [stringify] on a compound is not pure. The first call
    returns the accumulated string and resets the object, whose string
    becomes empty and whose last kind becomes [null] while its counters and
    its link to the facade stay; it also empties the facade's [selectors],
    and leaves [splitters] and the other objects as they were. A second
    call on the same compound returns the empty string and changes nothing
    more. *)
Theorem selector_stringify_twice (l : loc) (w : world) (this : selector) :
  wf w = true →
  heap w !! l = Some this →
  let w' := {| heap := <[l := {| str := "";
                                last := None;
                                unicCall := unicCall this;
                                prototype := prototype this |}]> (heap w);
               selectors := [];
               splitters := splitters w |} in
  stringify (VSel l) w = Ok w' (str this)
  ∧ stringify (VSel l) w' = Ok w' "".
Proof.
  intros Hw Hl w'.
  pose proof (lookup_lt_Some _ _ _ Hl) as Hlt.
  destruct (wf_lookup w l Hw Hlt) as (this0 & Hl0 & Hp).
  rewrite Hl in Hl0. injection Hl0 as <-.
  cbn [stringify]. rewrite (stringify_lookup l w this Hl Hp).
  split; [reflexivity |].
  erewrite stringify_lookup; cycle 1.
  { cbn [heap]. by apply list_lookup_insert_eq. }
  { exact Hp. }
  unfold w'. cbn [heap splitters str set_last set_str].
  by rewrite list_insert_insert_eq.
Qed.

Lemma selector_stringify_twice_witness :
  let w := state_of (cssSelectorBuilder.id "main" cssSelectorBuilder.init) in
  let w' := state_of (stringify (VSel 0) w) in
  wf w = true
  ∧ value_of (stringify (VSel 0) w) = Some "#main"
  ∧ heap w' = [MkSelector "" None (<[KId := Num 1]> (unicCall Selector.new))
                 (Some Builder)]
  ∧ selectors w' = []
  ∧ value_of (stringify (VSel 0) w') = Some "".
Proof.
  intros w w'. split; [reflexivity |].
  destruct (selector_stringify_twice 0 w
              (MkSelector "#main" (Some KId)
                 (<[KId := Num 1]> (unicCall Selector.new)) (Some Builder))
              eq_refl eq_refl)
    as [H1 H2].
  unfold w'. rewrite H1. cbn [state_of value_of]. rewrite H2.
  repeat split.
Defined.

(** C2, as stated, fails: after [id("main")] the first [stringify] returns
    ["#main"] and the second the empty string, and the first call has
    changed the store; after the facade's [stringify] has returned, a second
    call on the same combined expression throws. *)
Lemma stringify_twice_differs :
  (let w := state_of (cssSelectorBuilder.id "main" cssSelectorBuilder.init) in
   let w' := state_of (stringify (VSel 0) w) in
   value_of (stringify (VSel 0) w) = Some "#main"
   ∧ value_of (stringify (VSel 0) w') = Some ""
   ∧ w' ≠ w)
  ∧ (let w := state_of ((a ← cssSelectorBuilder.id "main";
                         b ← cssSelectorBuilder.id "side";
                         cssSelectorBuilder.combine (VSel a) (VStr ">") [VSel b])
                        cssSelectorBuilder.init) in
     let w' := state_of (stringify VFacade w) in
     value_of (stringify VFacade w) = Some "#main > #side"
     ∧ thrown (stringify VFacade w') = Some TypeError).
Proof. repeat split. discriminate. Qed.

(** ** [combine] *)

(** C9: [combine] returns the facade and puts its second argument in front
    of [splitters]; the first argument and anything after the second are
    not used. The facade's [stringify] afterwards joins the compounds in the
    order in which they were created, whichever operands were passed. *)
Theorem combine_uses_second_argument_only (a a' b : jsval)
    (rest rest' : list jsval) (w : world) :
  (cssSelectorBuilder.combine a b rest w
   = Ok (set_splitters (b :: splitters w) w) VFacade
   ∧ cssSelectorBuilder.combine a' b rest' w
     = cssSelectorBuilder.combine a b rest w)
  ∧ (wf w = true → selectors w ≠ [] →
     value_of ((e ← cssSelectorBuilder.combine a b rest; stringify e) w)
     = Some (concat_strings
               (pieces (set_splitters (b :: splitters w) w) (selectors w) 0))).
Proof.
  split; [split; reflexivity |].
  intros Hw Hne. unfold mbind, M_bind. simpl.
  by rewrite (facade_stringify_value (set_splitters (b :: splitters w) w)).
Qed.

Lemma combine_uses_second_argument_only_witness :
  let w := state_of ((cssSelectorBuilder.element "a" ;;
                      cssSelectorBuilder.element "b") cssSelectorBuilder.init) in
  wf w = true ∧ selectors w = [0; 1]
  ∧ value_of ((e ← cssSelectorBuilder.combine (VSel 1) (VStr "+") [VSel 0];
               stringify e) w)
    = Some "a + b".
Proof.
  intros w. split; [reflexivity |]. split; [reflexivity |].
  rewrite (proj2 (combine_uses_second_argument_only
                    (VSel 1) (VSel 1) (VStr "+") [VSel 0] [VSel 0] w)
             eq_refl ltac:(discriminate)).
  reflexivity.
Defined.

(** ** Failures of [combine] and [stringify] *)

(** C8, as amended: on every store that the public methods produce,
    [combine] returns, [stringify] of a compound that the facade has
    returned returns, and [stringify] of a combined expression returns as
    long as [selectors] is not empty, that is, as long as a compound has
    been created since the last [stringify]. *)
Theorem combine_stringify_return (w : world) :
  reachable w →
  (∀ a b rest, thrown (cssSelectorBuilder.combine a b rest w) = None)
  ∧ (∀ l, l < length (heap w) → thrown (stringify (VSel l) w) = None)
  ∧ (selectors w ≠ [] → thrown (stringify VFacade w) = None).
Proof.
  intros Hw%reachable_wf. split; [reflexivity |]. split.
  - intros l Hl. destruct (wf_lookup w l Hw Hl) as (this & Hthis & Hp).
    cbn [stringify]. by rewrite (stringify_lookup l w this Hthis Hp).
  - intros Hne. cbn [stringify].
    by destruct (facade_stringify_ok w Hw Hne) as (w' & strs & _ & -> & _).
Qed.

Lemma combine_stringify_return_witness :
  let w := fold_left perform
             [ANew KElement "a"; ANew KElement "b";
              ACombine (VSel 0) (VStr ">") [VSel 1]]
             cssSelectorBuilder.init in
  reachable w
  ∧ thrown (cssSelectorBuilder.combine (VSel 0) (VStr "+") [VFacade] w) = None
  ∧ thrown (stringify (VSel 1) w) = None
  ∧ thrown (stringify VFacade w) = None.
Proof.
  intros w.
  assert (reachable w) as Hw by (eexists; reflexivity).
  split; [exact Hw |].
  destruct (combine_stringify_return w Hw) as (Hc & Hs & Hf).
  split; [apply Hc |]. split; [apply Hs; vm_compute; lia |].
  apply Hf. discriminate.
Defined.

(** C8, as stated, fails: once the facade's [stringify] has returned, a
    second call on the same combined expression throws a TypeError, as does
    [stringify] of a combined expression after one of its operands has been
    serialized on its own. *)
Lemma stringify_throws :
  (let w := fold_left perform
              [ANew KElement "a"; ANew KElement "b";
               ACombine (VSel 0) (VStr ">") [VSel 1];
               AStringify VFacade]
              cssSelectorBuilder.init in
   reachable w ∧ thrown (stringify VFacade w) = Some TypeError)
  ∧ (let w := fold_left perform
                [ANew KElement "a"; ANew KElement "b";
                 AStringify (VSel 0);
                 ACombine (VSel 0) (VStr ">") [VSel 1]]
                cssSelectorBuilder.init in
     reachable w ∧ thrown (stringify VFacade w) = Some TypeError).
Proof.
  split; (split; [eexists; reflexivity | reflexivity]).
Qed.

(** ** The combined scenario *)

(** Evaluate the next facade call, and the next chained call on the object
    created last. *)
Ltac new_step :=
  rewrite (setNewSelector_ok _ _ _ _ (call_new _ _));
  cbn [heap selectors splitters].

Ltac call_step :=
  erewrite on_lookup by apply lookup_new_object;
  eval_call; unfold set_heap; cbn [heap selectors splitters];
  rewrite insert_new_object.

Lemma lookup_offset (h l : list selector) (k : nat) :
  (h ++ l) !! (length h + k) = l !! k.
Proof. rewrite lookup_app_r by lia. f_equal. lia. Qed.

(** C1, as amended: when the facade holds no selectors and no splitters, the
    scenario returns the four compounds in the order of their creation, each
    combinator between two spaces. The descendant combinator is itself a
    space, so three spaces stand between the last two compounds. *)
Theorem scenario_combined_result (w : world) :
  wf w = true → selectors w = [] → splitters w = [] →
  value_of (scenario_combined w)
  = Some "div#main.container.draggable + table#data ~ tr:nth-of-type(even)   td:nth-of-type(even)".
Proof.
  intros Hw Hsels Hsp.
  unfold scenario_combined, mbind, M_bind, cssSelectorBuilder.element,
    SelectorAt.id, SelectorAt.class, SelectorAt.pseudoClass,
    Selector.id, Selector.class, Selector.pseudoClass.
  new_step. do 3 call_step.
  new_step. call_step.
  new_step. call_step.
  new_step. call_step.
  unfold cssSelectorBuilder.combine, set_splitters.
  cbn [heap selectors splitters stringify].
  rewrite Hsels, Hsp. cbn [app].
  rewrite <- !app_assoc. cbn [app].
  rewrite !length_app. cbn [length].
  match goal with
  | |- value_of (cssSelectorBuilder.stringify ?wF) = _ =>
      assert (wf wF = true) as HwF
  end.
  { apply wf_spec in Hw as (Hh & _ & _). apply wf_spec.
    cbn [heap selectors]. split; [| split].
    - apply Forall_app. split; [exact Hh |]. by repeat constructor.
    - rewrite length_app. cbn [length]. repeat constructor; lia.
    - repeat constructor; rewrite ?elem_of_cons; rewrite ?elem_of_nil; lia. }
  rewrite (facade_stringify_value _ HwF) by done.
  cbn [pieces heap selectors splitters lookup].
  rewrite <- (Nat.add_0_r (length (heap w))) at 1.
  replace (length (heap w) + 1 + 1 + 1) with (length (heap w) + 3) by lia.
  replace (length (heap w) + 1 + 1) with (length (heap w) + 2) by lia.
  rewrite !lookup_offset. reflexivity.
Qed.

Lemma scenario_combined_result_witness :
  wf cssSelectorBuilder.init = true
  ∧ selectors cssSelectorBuilder.init = []
  ∧ splitters cssSelectorBuilder.init = []
  ∧ value_of (scenario_combined cssSelectorBuilder.init)
    = Some "div#main.container.draggable + table#data ~ tr:nth-of-type(even)   td:nth-of-type(even)".
Proof.
  repeat (split; [reflexivity |]).
  apply (scenario_combined_result cssSelectorBuilder.init); reflexivity.
Defined.

(** C1, as stated, fails: the result is not the string with a single space
    for the descendant combinator. *)
Lemma scenario_combined_not_single_space :
  value_of (scenario_combined cssSelectorBuilder.init)
  ≠ Some "div#main.container.draggable + table#data ~ tr:nth-of-type(even) td:nth-of-type(even)".
Proof. vm_compute. discriminate. Qed.

(** * Further properties of the builder *)

Lemma index_nonneg_from_null (k : fname) :
  (indexOf orderRule None ≤ index k)%Z.
Proof. by destruct k. Qed.

(** ** A call that returns *)

(** X1: a fragment method that returns has passed both checks, has appended
    the prefix of its kind, the text and the suffix of its kind to the
    accumulated string, has made its kind the last one, and has stored the
    incremented counter; [prototype] is as before. *)
Theorem returned_append_effect (f : fname) (v : string) (this this' : selector) :
  Selector.call f v this = Ok this' tt →
  str this' = str this +:+ fragment_text (f, v)
  ∧ last this' = Some f
  ∧ unicCall this' = <[f := js_add1 (unicCall this !! f)]> (unicCall this)
  ∧ prototype this' = prototype this
  ∧ js_gt1 (js_add1 (unicCall this !! f)) = false
  ∧ (indexOf orderRule (last this) ≤ index f)%Z.
Proof.
  rewrite call_callMeth.
  destruct (callMeth_cases v f
              (if decide (prefix f = "") then None else Some (prefix f))
              (if decide (suffix f = "") then None else Some (suffix f)) this)
    as [[_ ->] | [(_ & _ & ->) | (Hcheck & Hidx & ->)]]; intros H;
    try discriminate H.
  injection H as <-. simpl. rewrite or_empty_prefix, or_empty_suffix.
  repeat split; try done.
  unfold fragment_text. simpl. by rewrite !append_assoc.
Qed.

Lemma returned_append_effect_witness :
  let this := run [OCall KElement "a"] Selector.new in
  let this' := state_of (Selector.call KAttr "href" this) in
  Selector.call KAttr "href" this = Ok this' tt
  ∧ str this' = "a[href]"
  ∧ last this' = Some KAttr.
Proof.
  intros this this'. split; [reflexivity |].
  destruct (returned_append_effect KAttr "href" this this' eq_refl)
    as (Hstr & Hlast & _).
  split; [rewrite Hstr; reflexivity | exact Hlast].
Defined.

(** ** Repeatable and singleton kinds *)



(** X3: [element], [id] and [pseudoElement] are used up by the first call of
    their method, whether that call returned or threw: a later call throws
    the duplicate error exactly when the method was called on the object
    before, and [stringify] in between does not change that. *)
Theorem singleton_used_up_by_any_call (ops : list op) (k : fname) (v : string) :
  unic k = true →
  thrown (Selector.call k v (run ops Selector.new)) = Some (Error msg_unique)
  ↔ 0 < calls k ops.
Proof.
  intros Hk.
  pose proof (history_check ops k) as Hcheck.
  rewrite Hk in Hcheck. simpl in Hcheck.
  rewrite call_callMeth.
  destruct (callMeth_cases v k
              (if decide (prefix k = "") then None else Some (prefix k))
              (if decide (suffix k = "") then None else Some (suffix k))
              (run ops Selector.new))
    as [[Hc ->] | [(Hc & _ & ->) | (Hc & _ & ->)]];
    rewrite Hc in Hcheck; symmetry in Hcheck.
  - apply bool_decide_eq_true in Hcheck. done.
  - apply bool_decide_eq_false in Hcheck. split; [discriminate | done].
  - apply bool_decide_eq_false in Hcheck. split; [discriminate | done].
Qed.

Lemma singleton_used_up_by_any_call_witness :
  let ops := [OCall KClass "a"; OCall KElement "b"; OStringify] in
  unic KElement = true
  ∧ thrown (Selector.call KElement "b" (run [OCall KClass "a"] Selector.new))
    = Some (Error msg_order)
  ∧ 0 < calls KElement ops
  ∧ thrown (Selector.call KElement "c" (run ops Selector.new))
    = Some (Error msg_unique).
Proof.
  intros ops. split; [reflexivity |]. split; [reflexivity |].
  assert (0 < calls KElement ops) as Hcalls by (vm_compute; lia).
  split; [exact Hcalls |].
  apply (singleton_used_up_by_any_call ops KElement "c" eq_refl), Hcalls.
Defined.

(** ** A compound after [stringify] *)

(** X4: [stringify] empties the string and forgets the last kind but keeps
    the counters. The next fragment may therefore be of any kind, whatever
    was appended before, except a singleton kind whose method was already
    called; when the call returns, the string is the text of that fragment
    alone. *)
Theorem append_after_stringify (ops : list op) (k : fname) (v : string) :
  let this := run (ops ++ [OStringify]) Selector.new in
  str this = ""
  ∧ last this = None
  ∧ thrown (Selector.call k v this)
    = (if unic k && bool_decide (0 < calls k ops)
       then Some (Error msg_unique) else None)
  ∧ (thrown (Selector.call k v this) = None →
     str (state_of (Selector.call k v this)) = fragment_text (k, v)).
Proof.
  intros this.
  assert (str this = "" ∧ last this = None) as [Hstr Hlast].
  { unfold this. rewrite run_app. done. }
  pose proof (history_check (ops ++ [OStringify]) k) as Hcheck. fold this in Hcheck.
  rewrite calls_app in Hcheck. simpl in Hcheck. rewrite Nat.add_0_r in Hcheck.
  split; [done |]. split; [done |].
  rewrite call_callMeth.
  destruct (unic k && bool_decide (0 < calls k ops)).
  - rewrite callMeth_duplicate by done. split; [done | discriminate].
  - rewrite callMeth_ok; [| done |].
    + split; [done |]. intros _. simpl.
      rewrite Hstr, or_empty_prefix, or_empty_suffix.
      unfold fragment_text. simpl. by rewrite append_assoc.
    + rewrite Hlast. apply index_nonneg_from_null.
Qed.

(** ** The facade's constructors *)

(** X5: each of the six constructors of the facade returns, for every text
    and in every state of the facade. It returns a reference to a new
    object, registers it as the last of [selectors], and leaves the objects
    created before and [splitters] as they were; the new object holds the
    one fragment, has its kind as the last one, and is linked to the
    facade. *)
Theorem facade_constructor_returns (f : fname) (v : string) (w : world) :
  ∃ this,
    cssSelectorBuilder.setNewSelector v f w
    = Ok {| heap := heap w ++ [this];
            selectors := selectors w ++ [length (heap w)];
            splitters := splitters w |} (length (heap w))
    ∧ str this = fragment_text (f, v)
    ∧ last this = Some f
    ∧ prototype this = Some Builder
    ∧ unicCall this !! f = Some (if unic f then Num 1 else NaN).
Proof.
  eexists. split; [apply (setNewSelector_ok _ _ _ _ (call_new f v)) |].
  repeat split. simpl. rewrite lookup_insert_eq. by destruct f.
Qed.

(** ** What building a compound leaves in the store *)

(** The object that a constructor of the facade creates. *)
Lemma created_object (f : fname) (v : string) :
  set_prototype (Some Builder) (state_of (Selector.call f v Selector.new))
  = {| str := fragment_text (f, v);
       last := Some f;
       unicCall := <[f := js_add1 (unicCall Selector.new !! f)]>
                     (unicCall Selector.new);
       prototype := Some Builder |}.
Proof. by rewrite call_new. Qed.

Lemma build_unfold (f : fname) (v : string) (fs : list (fname * string))
    (w : world) :
  build f v fs w
  = match appends fs (set_prototype (Some Builder)
                        (state_of (Selector.call f v Selector.new))) with
    | Ok this' _ =>
        Ok {| heap := heap w ++ [this'];
              selectors := selectors w ++ [length (heap w)];
              splitters := splitters w |} (length (heap w))
    | Throw this' e =>
        Throw {| heap := heap w ++ [this'];
                 selectors := selectors w ++ [length (heap w)];
                 splitters := splitters w |} e
    end.
Proof.
  unfold build, mbind, M_bind.
  rewrite (setNewSelector_ok _ _ _ _ (call_new f v)).
  erewrite chain_appends by apply lookup_new_object.
  rewrite call_new. unfold set_heap. cbn [heap selectors splitters state_of].
  match goal with
  | |- context [appends fs ?n] => destruct (appends fs n)
  end; by rewrite insert_new_object.
Qed.

Lemma appends_prototype (fs : list (fname * string)) (this : selector) :
  prototype (state_of (appends fs this)) = prototype this.
Proof.
  revert this. induction fs as [|[f v] fs IH]; intros this; [reflexivity |].
  simpl. unfold mbind, M_bind.
  pose proof (call_prototype f v this) as Hp.
  destruct (Selector.call f v this) as [this1 []|this1 e]; simpl in *;
    [| done].
  by rewrite IH.
Qed.

(** X6: a compound is registered with the facade when it is created, before
    the chained calls run. Whether the chain returns or one of its calls
    throws, the store afterwards holds exactly one more object, linked to
    the facade and registered as the last of [selectors]; the objects
    created before and [splitters] are as they were. *)
Theorem build_registers_compound (f : fname) (v : string)
    (fs : list (fname * string)) (w : world) :
  let w' := state_of (build f v fs w) in
  selectors w' = selectors w ++ [length (heap w)]
  ∧ splitters w' = splitters w
  ∧ ∃ this, heap w' = heap w ++ [this] ∧ prototype this = Some Builder.
Proof.
  rewrite build_unfold.
  pose proof (appends_prototype fs
                (set_prototype (Some Builder)
                   (state_of (Selector.call f v Selector.new)))) as Hp.
  destruct (appends fs _) as [this' ?|this' ?]; simpl in *;
    (split; [done |]; split; [done |]; by exists this').
Qed.

(** ** Sequences that the builder rejects *)

Lemma shaped_new : shaped Selector.new.
Proof. split; intros k Hk; destruct k; try discriminate Hk; by eauto. Qed.

Lemma shaped_call (f : fname) (v : string) (this : selector) :
  shaped this → shaped (state_of (Selector.call f v this)).
Proof.
  intros [Hu Hr]. split; intros k Hk; rewrite call_unicCall, lookup_insert.
  - destruct (decide (f = k)) as [->|]; [| by apply Hu].
    destruct (Hu k Hk) as [n ->]. by exists (S n).
  - intros n. destruct (decide (f = k)) as [->|]; [| by apply Hr].
    specialize (Hr k Hk).
    destruct (unicCall this !! k) as [[m|]|]; [by destruct (Hr m) | done | done].
Qed.

(** The calls of a chain throw only the two errors of [Selector]. *)
Lemma appends_thrown (fs : list (fname * string)) (this : selector) (e : exn) :
  thrown (appends fs this) = Some e →
  e = Error msg_unique ∨ e = Error msg_order.
Proof.
  revert this. induction fs as [|[f v] fs IH]; intros this; [discriminate |].
  simpl. unfold mbind, M_bind. rewrite call_callMeth.
  destruct (callMeth_cases v f
              (if decide (prefix f = "") then None else Some (prefix f))
              (if decide (suffix f = "") then None else Some (suffix f)) this)
    as [[_ ->] | [(_ & _ & ->) | (_ & _ & ->)]]; simpl.
  - intros [= <-]. by left.
  - intros [= <-]. by right.
  - apply IH.
Qed.

(** A chain that returns was admitted by the state it started from, when no
    counter of that state is above 1. *)
Lemma appends_returned_fits (fs : list (fname * string)) (this : selector) :
  shaped this →
  (∀ k n, unicCall this !! k = Some (Num n) → n ≤ 1) →
  thrown (appends fs this) = None → fits this fs.*1.
Proof.
  revert this. induction fs as [|[f v] fs IH]; intros this Hshaped Hlow Hret.
  - destruct Hshaped as [Hu Hr]. split; [done |]. split; [done |].
    split; [| done]. intros k Hk. destruct (Hu k Hk) as [n Hn].
    exists n. split; [done |]. specialize (Hlow k n Hn). simpl. lia.
  - simpl in Hret. unfold mbind, M_bind in Hret.
    pose proof (shaped_call f v this Hshaped) as Hshaped1.
    pose proof (call_unicCall f v this) as Hcnt.
    rewrite call_callMeth in Hret, Hshaped1, Hcnt.
    destruct (callMeth_cases v f
                (if decide (prefix f = "") then None else Some (prefix f))
                (if decide (suffix f = "") then None else Some (suffix f)) this)
      as [[_ Hc] | [(_ & _ & Hc) | (Hcheck & Hidx & Hc)]];
      rewrite Hc in Hret, Hshaped1, Hcnt; try discriminate Hret.
    cbn [state_of] in Hshaped1, Hcnt.
    destruct (IH _ Hshaped1) as (Hhead & Hord & Hunic & Hrep); [| exact Hret |].
    { intros k n. rewrite Hcnt, lookup_insert.
      destruct (decide (f = k)) as [->|]; [| by apply Hlow].
      intros [= Hn]. rewrite Hn in Hcheck. simpl in Hcheck.
      apply bool_decide_eq_false in Hcheck. lia. }
    destruct Hshaped as [Hu Hr].
    change (((f, v) :: fs).*1) with (f :: fs.*1).
    split; [exact Hidx |]. split; [| split; [| exact Hr]].
    + destruct (fs.*1) as [|k ks]; [done |].
      cbn [ordered]. cbn [last set_str set_last] in Hhead.
      apply andb_true_intro. split; [| done].
      by apply bool_decide_eq_true.
    + intros k Hk. destruct (Hu k Hk) as [n Hn]. exists n. split; [done |].
      destruct (Hunic k Hk) as (n1 & Hn1 & Hle).
      rewrite Hcnt, lookup_insert in Hn1. simpl.
      destruct (decide (f = k)) as [->|].
      * rewrite Hn in Hn1. injection Hn1 as <-. lia.
      * rewrite Hn in Hn1. injection Hn1 as <-. lia.
Qed.

Lemma created_object_shaped (f : fname) (v : string) :
  shaped (set_prototype (Some Builder)
            (state_of (Selector.call f v Selector.new))).
Proof. exact (shaped_call f v Selector.new shaped_new). Qed.

Lemma created_object_counters (f : fname) (v : string) (k : fname) :
  unicCall (set_prototype (Some Builder)
              (state_of (Selector.call f v Selector.new))) !! k
  = if unic k then Some (Num (if decide (f = k) then 1 else 0))
    else if decide (f = k) then Some NaN else None.
Proof. rewrite created_object. by destruct f, k. Qed.

(** The state after the first fragment admits the rest only if the whole
    sequence is valid. *)
Lemma fits_created_valid (f : fname) (v : string) (fs : list (fname * string)) :
  fits (set_prototype (Some Builder)
          (state_of (Selector.call f v Selector.new))) fs.*1 →
  valid_sequence ((f, v) :: fs) = true.
Proof.
  intros (Hhead & Hord & Hunic & _).
  unfold valid_sequence. change (((f, v) :: fs).*1) with (f :: fs.*1).
  apply andb_true_intro. split.
  - destruct (fs.*1) as [|k ks]; [done |]. cbn [ordered].
    rewrite created_object in Hhead. cbn [last] in Hhead.
    apply andb_true_intro. split; [by apply bool_decide_eq_true | done].
  - assert (∀ k, unic k = true → occurrences k (f :: fs.*1) ≤ 1) as Hocc.
    { intros k Hk. destruct (Hunic k Hk) as (n & Hn & Hle).
      rewrite created_object_counters, Hk in Hn. injection Hn as <-.
      simpl. destruct (decide (f = k)); lia. }
    unfold cardinality_ok. cbn [forallb].
    rewrite (bool_decide_eq_true_2 _ (Hocc KElement eq_refl)).
    rewrite (bool_decide_eq_true_2 _ (Hocc KId eq_refl)).
    rewrite (bool_decide_eq_true_2 _ (Hocc KPseudoElement eq_refl)).
    reflexivity.
Qed.

(** X7: building a compound through the facade returns exactly for the
    sequences that respect the canonical order and the cardinality rule; for
    every other sequence one of the chained calls throws, and what it throws
    is the duplicate error or the order error. *)
Theorem build_returns_iff_valid (f : fname) (v : string)
    (fs : list (fname * string)) (w : world) :
  (thrown (build f v fs w) = None ↔ valid_sequence ((f, v) :: fs) = true)
  ∧ (∀ e, thrown (build f v fs w) = Some e →
       e = Error msg_unique ∨ e = Error msg_order).
Proof.
  rewrite build_unfold.
  set (n := set_prototype (Some Builder) (state_of (Selector.call f v Selector.new))).
  assert (thrown (appends fs n) = None → valid_sequence ((f, v) :: fs) = true)
    as Hret.
  { intros H. apply fits_created_valid. fold n.
    apply appends_returned_fits; [apply created_object_shaped | | exact H].
    intros k m. unfold n. rewrite created_object_counters.
    destruct (unic k), (decide (f = k)); intros [= <-]; lia. }
  assert (valid_sequence ((f, v) :: fs) = true → thrown (appends fs n) = None)
    as Hvalid.
  { intros [Hord Hcard]%andb_prop.
    pose proof (fits_new _ Hord Hcard) as Hfits.
    destruct (fits_step f v _ _ Hfits) as (n0 & Hcall & Hfits1 & _).
    destruct (appends_fits fs n) as (this' & -> & _); [| done].
    unfold n. rewrite Hcall. by apply fits_set_prototype. }
  pose proof (appends_thrown fs n) as Hkind.
  destruct (appends fs n) as [this' ?|this' e]; simpl in *.
  - split; [split; [by auto | done] | discriminate].
  - split; [split; [discriminate |] | by apply Hkind].
    intros H. by apply Hvalid in H.
Qed.

(** ** The store that the public methods keep *)

(** X8: in every store that calls of the public methods produce, every
    object is linked to the facade (so its [stringify] cannot throw), every
    reference in [selectors] points to an object of the store, and no
    object is registered twice. *)
Theorem reachable_store_invariant (w : world) :
  reachable w →
  Forall (λ this, prototype this = Some Builder) (heap w)
  ∧ Forall (λ l, l < length (heap w)) (selectors w)
  ∧ NoDup (selectors w).
Proof. intros Hw. by apply wf_spec, reachable_wf. Qed.

Lemma reachable_store_invariant_witness :
  let w := fold_left perform
             [ANew KElement "a"; AAppend 0 KElement "b"; ANew KId "c";
              AStringify (VSel 0); ANew KClass "d";
              ACombine (VSel 1) (VStr "+") [VSel 2]]
             cssSelectorBuilder.init in
  reachable w
  ∧ selectors w = [2]
  ∧ Forall (λ this, prototype this = Some Builder) (heap w)
  ∧ NoDup (selectors w).
Proof.
  intros w.
  assert (reachable w) as Hw by (eexists; reflexivity).
  split; [exact Hw |]. split; [reflexivity |].
  destruct (reachable_store_invariant w Hw) as (Hh & _ & Hnd).
  split; [exact Hh | exact Hnd].
Defined.

(** ** What the facade's [stringify] does to the store *)

Lemma stringify_own_idempotent (this : selector) :
  state_of (Selector.stringify_own (state_of (Selector.stringify_own this)))
  = state_of (Selector.stringify_own this).
Proof. reflexivity. Qed.

Lemma map_selectors_heap (sels : list loc) (i : nat) (w : world) (l : loc) :
  wf w = true →
  Forall (λ l, l < length (heap w)) sels →
  heap (state_of (cssSelectorBuilder.map_selectors sels i w)) !! l
  = if decide (l ∈ sels)
    then (λ this, state_of (Selector.stringify_own this)) <$> heap w !! l
    else heap w !! l.
Proof.
  revert i w. induction sels as [|l0 sels IH]; intros i w Hw Hsels.
  - cbn [cssSelectorBuilder.map_selectors]. unfold mret, M_ret. cbn [state_of].
    case_decide as Hin; [by apply elem_of_nil in Hin | done].
  - apply Forall_cons in Hsels as [Hl0 Hsels].
    destruct (wf_lookup w l0 Hw Hl0) as (this & Hthis & Hp).
    pose proof (wf_selector_stringify l0 w Hw) as Hw1.
    cbn [cssSelectorBuilder.map_selectors]. unfold mbind, M_bind.
    rewrite (stringify_lookup l0 w this Hthis Hp) in Hw1 |- *.
    cbn [state_of] in Hw1. unfold gets at 1. cbn [splitters].
    set (w1 := {| heap := _ |}) in *.
    assert (Forall (λ l, l < length (heap w1)) sels) as Hsels1.
    { subst w1. simpl. by rewrite length_insert. }
    specialize (IH (S i) w1 Hw1 Hsels1).
    destruct (cssSelectorBuilder.map_selectors sels (S i) w1) as [w' strs|w' e];
      unfold mret, M_ret; cbn [state_of] in IH |- *; rewrite IH; subst w1;
      cbn [heap];
      (destruct (decide (l = l0)) as [->|Hne];
       [ rewrite list_lookup_insert_eq by done; rewrite Hthis;
         rewrite (decide_True (P := l0 ∈ l0 :: sels))
           by (apply elem_of_cons; by left);
         by destruct (decide (l0 ∈ sels))
       | rewrite list_lookup_insert_ne by done;
         destruct (decide (l ∈ sels)) as [Hin|Hnin];
         [ by rewrite decide_True by (apply elem_of_cons; by right)
         | rewrite decide_False; [done |];
           by intros [?|?]%elem_of_cons ] ]).
Qed.

(** X9: on a store that the public methods produce, the facade's
    [stringify] throws a TypeError and changes nothing when no compound is
    registered (the splitters recorded by [combine] stay). Otherwise it
    returns the registered compounds' strings joined in the order of their
    creation, the [i]-th followed by the [i]-th splitter between spaces when
    that splitter is truthy; it empties [selectors] and [splitters]; of
    every compound it serialized the string becomes empty and the last kind
    [null], the counters and the link to the facade staying; and it leaves
    every other object as it was. *)
Theorem facade_stringify_effect (w : world) :
  reachable w →
  match selectors w with
  | [] => stringify VFacade w = Throw w TypeError
  | _ :: _ =>
      ∃ w', stringify VFacade w
            = Ok w' (concat_strings (pieces w (selectors w) 0))
        ∧ selectors w' = []
        ∧ splitters w' = []
        ∧ ∀ l, heap w' !! l
               = if decide (l ∈ selectors w)
                 then (λ this, {| str := "";
                                  last := None;
                                  unicCall := unicCall this;
                                  prototype := prototype this |})
                        <$> heap w !! l
                 else heap w !! l
  end.
Proof.
  intros Hw%reachable_wf. cbn [stringify].
  destruct (selectors w) as [|l0 sels] eqn:Hsels.
  - by apply facade_stringify_empty.
  - assert (selectors w ≠ []) as Hne by (by rewrite Hsels).
    destruct (facade_stringify_ok w Hw Hne) as (w1 & strs & Hmap & -> & _).
    pose proof Hw as (_ & Hs & Hnd)%wf_spec.
    pose proof (map_selectors_pieces (selectors w) 0 w Hw Hs Hnd) as Hval.
    rewrite Hmap in Hval. simpl in Hval. injection Hval as ->.
    eexists. split; [by rewrite Hsels |].
    split; [reflexivity |]. split; [reflexivity |].
    intros l. cbn [heap].
    pose proof (map_selectors_heap (selectors w) 0 w l Hw Hs) as Hheap.
    rewrite Hmap in Hheap. cbn [state_of] in Hheap.
    rewrite <- Hsels. exact Hheap.
Qed.

Lemma facade_stringify_effect_witness :
  let w := fold_left perform
             [ANew KElement "a"; ANew KId "b"; ANew KClass "c";
              ACombine (VSel 0) (VStr ">") [VSel 1]]
             cssSelectorBuilder.init in
  reachable w
  ∧ selectors w = [0; 1; 2]
  ∧ value_of (stringify VFacade w) = Some "a > #b.c"
  ∧ selectors (state_of (stringify VFacade w)) = []
  ∧ splitters (state_of (stringify VFacade w)) = []
  ∧ heap (state_of (stringify VFacade w)) !! 1
    = Some (MkSelector "" None (<[KId := Num 1]> (unicCall Selector.new))
              (Some Builder)).
Proof.
  intros w.
  assert (reachable w) as Hw by (eexists; reflexivity).
  split; [exact Hw |]. split; [reflexivity |].
  pose proof (facade_stringify_effect w Hw) as H.
  change (selectors w) with [0; 1; 2] in H.
  destruct H as (w' & -> & Hsels & Hsp & Hheap).
  split; [reflexivity |]. split; [exact Hsels |]. split; [exact Hsp |].
  cbn [state_of]. rewrite (Hheap 1). reflexivity.
Defined.

(** ** Expressions of several compounds *)

Lemma tail_drop {A} (l : list A) (i : nat) : tail (drop i l) = drop (S i) l.
Proof.
  revert l. induction i as [|i IH]; intros [|x l]; try reflexivity.
  apply (IH l).
Qed.

Lemma head_drop {A} (l : list A) (i : nat) : head (drop i l) = l !! i.
Proof. by rewrite head_lookup, lookup_drop, Nat.add_0_r. Qed.

(** The pieces of compounds that lie one after the other in the store. *)
Lemma pieces_seq (objs h : list selector) (i : nat) (w : world) :
  heap w = h ++ objs →
  concat_strings (pieces w (seq (length h) (length objs)) i)
  = interleave (str <$> objs) (drop i (splitters w)).
Proof.
  revert h i. induction objs as [|o objs IH]; intros h i Hheap; [reflexivity |].
  cbn [length seq pieces concat_strings fmap list_fmap interleave].
  rewrite Hheap, lookup_app_r, Nat.sub_diag by lia. cbn [lookup list_lookup].
  rewrite head_drop, tail_drop. f_equal.
  rewrite <- (IH (h ++ [o]) (S i)).
  - rewrite length_app. cbn [length]. by rewrite Nat.add_1_r.
  - by rewrite Hheap, <- app_assoc.
Qed.

(** The facade's [stringify] when [selectors] holds exactly the compounds
    [objs], the last objects of the store. *)
Lemma stringify_built (w : world) (h objs : list selector) :
  heap w = h ++ objs →
  selectors w = seq (length h) (length objs) →
  objs ≠ [] →
  Forall (λ this, prototype this = Some Builder) (h ++ objs) →
  value_of (cssSelectorBuilder.stringify w)
  = Some (interleave (str <$> objs) (splitters w)).
Proof.
  intros Hheap Hsels Hne Hp.
  assert (wf w = true) as Hw.
  { apply wf_spec. rewrite Hheap, Hsels. split; [done |]. split.
    - apply Forall_seq. intros j Hj. rewrite length_app. lia.
    - apply NoDup_seq. }
  rewrite (facade_stringify_value w Hw).
  - by rewrite Hsels, (pieces_seq objs h 0 w Hheap).
  - rewrite Hsels. by destruct objs.
Qed.

(** Building a valid compound returns. *)
Lemma build_valid (c : compound) (w : world) :
  compound_valid c = true →
  ∃ this,
    build c.1.1 c.1.2 c.2 w
    = Ok {| heap := heap w ++ [this];
            selectors := selectors w ++ [length (heap w)];
            splitters := splitters w |} (length (heap w))
    ∧ str this = compound_text c
    ∧ prototype this = Some Builder.
Proof.
  destruct c as [[f v] fs]. intros [Hord Hcard]%andb_prop. cbn [fst snd].
  pose proof (fits_new _ Hord Hcard) as Hfits.
  destruct (fits_step f v _ _ Hfits) as (n & Hcall & Hfits1 & Hstr1 & _).
  destruct (appends_fits fs (set_prototype (Some Builder) n))
    as (this' & Happ & Hstr & Hp); [by apply fits_set_prototype |].
  exists this'. rewrite build_unfold, Hcall. cbn [state_of]. rewrite Happ.
  split; [reflexivity |]. split; [| exact Hp].
  rewrite Hstr. cbn [str set_prototype]. by rewrite Hstr1.
Qed.

Lemma build_all_valid (cs : list compound) (w : world) :
  Forall (λ c, compound_valid c = true) cs →
  ∃ objs,
    build_all cs w
    = Ok {| heap := heap w ++ objs;
            selectors := selectors w ++ seq (length (heap w)) (length cs);
            splitters := splitters w |} (seq (length (heap w)) (length cs))
    ∧ str <$> objs = compound_text <$> cs
    ∧ Forall (λ this, prototype this = Some Builder) objs.
Proof.
  revert w. induction cs as [|c cs IH]; intros w Hvalid.
  - exists []. cbn [build_all length seq]. unfold mret, M_ret.
    rewrite !app_nil_r. by destruct w.
  - apply Forall_cons in Hvalid as [Hc Hcs].
    destruct (build_valid c w Hc) as (this & Hbuild & Hstr & Hp).
    cbn [build_all]. unfold mbind, M_bind. rewrite Hbuild.
    destruct (IH {| heap := heap w ++ [this];
                    selectors := selectors w ++ [length (heap w)];
                    splitters := splitters w |} Hcs)
      as (objs & -> & Hstrs & Hps).
    exists (this :: objs). cbn [heap selectors splitters].
    rewrite length_app. cbn [length]. rewrite Nat.add_1_r.
    unfold mret, M_ret. rewrite <- !app_assoc. cbn [app seq length].
    split; [reflexivity |]. split.
    + cbn [fmap list_fmap]. by rewrite Hstr, <- Hstrs.
    + by apply Forall_cons.
Qed.

(** Nested calls of [combine] leave the splitters in the order in which
    they are written. *)
Lemma nest_splitters (ls : list loc) (bs : list jsval) (w : world) :
  length ls = S (length bs) →
  nest ls bs w
  = Ok {| heap := heap w; selectors := selectors w;
          splitters := bs ++ splitters w |}
       (if bs is [] then VSel (default 0 (head ls)) else VFacade).
Proof.
  revert bs w. induction ls as [|l ls IH]; intros bs w Hlen; [discriminate |].
  destruct bs as [|b bs]; cbn [nest].
  - unfold mret, M_ret. by destruct w.
  - unfold mbind, M_bind. rewrite IH by (simpl in Hlen; lia). reflexivity.
Qed.

Lemma nested_value (cs : list compound) (bs : list jsval) (w : world) :
  wf w = true → selectors w = [] → splitters w = [] →
  Forall (λ c, compound_valid c = true) cs →
  length cs = S (length bs) →
  value_of ((ls ← build_all cs; e ← nest ls bs; stringify e) w)
  = Some (interleave (compound_text <$> cs) bs).
Proof.
  intros Hw Hsels Hsp Hvalid Hlen.
  destruct (build_all_valid cs w Hvalid) as (objs & Hbuild & Hstrs & Hps).
  unfold mbind, M_bind. rewrite Hbuild, nest_splitters by (by rewrite length_seq).
  cbn [heap selectors splitters]. rewrite Hsels, Hsp, app_nil_r. cbn [app].
  assert (length objs = length cs) as Hobjs.
  { by rewrite <- (length_fmap str objs), Hstrs, length_fmap. }
  pose proof Hw as (Hh & _ & _)%wf_spec.
  destruct bs as [|b bs].
  - destruct cs as [|c [|c' cs]]; try discriminate Hlen.
    destruct objs as [|o [|o' objs]]; try discriminate Hobjs.
    change (default 0 (head (seq (length (heap w)) (length [c]))))
      with (length (heap w)).
    change (interleave (compound_text <$> [c]) [])
      with (compound_text c +:+ "").
    cbn [stringify].
    erewrite stringify_lookup; cycle 1.
    { cbn [heap]. apply lookup_new_object. }
    { exact (Forall_inv Hps). }
    injection Hstrs as <-. cbn [value_of]. by rewrite append_empty_r.
  - cbn [stringify]. rewrite <- Hobjs.
    erewrite (stringify_built _ (heap w) objs); cbn [heap selectors splitters].
    + by rewrite Hstrs.
    + reflexivity.
    + reflexivity.
    + destruct objs; [| done]. simpl in Hobjs. simpl in Hlen. lia.
    + by apply Forall_app.
Qed.



(** X11: [combine] calls nested to the left apply the combinators in the
    reverse of the written order: on a facade with nothing pending,
    [combine(combine(A, b1, B), b2, C)] serializes as A, then [b2], then B,
    then [b1], then C. The splitter of the call that ran last is put in
    front, while the compounds keep the order of their creation. *)
Theorem left_nested_reverses_combinators (ca cb cc : compound)
    (b1 b2 : jsval) (w : world) :
  wf w = true → selectors w = [] → splitters w = [] →
  compound_valid ca = true → compound_valid cb = true →
  compound_valid cc = true →
  value_of (left_nested ca cb cc b1 b2 w)
  = Some (interleave [compound_text ca; compound_text cb; compound_text cc]
            [b2; b1]).
Proof.
  intros Hw Hsels Hsp Ha Hb Hc.
  pose proof Hw as (Hh & _ & _)%wf_spec.
  unfold left_nested, mbind, M_bind.
  destruct (build_valid ca w Ha) as (oa & -> & Hsa & Hpa).
  match goal with
  | |- context [build cb.1.1 cb.1.2 cb.2 ?w1] =>
      destruct (build_valid cb w1 Hb) as (ob & -> & Hsb & Hpb)
  end.
  unfold cssSelectorBuilder.combine, set_splitters.
  cbn [heap selectors splitters].
  match goal with
  | |- context [build cc.1.1 cc.1.2 cc.2 ?w2] =>
      destruct (build_valid cc w2 Hc) as (oc & -> & Hsc & Hpc)
  end.
  cbn [heap selectors splitters stringify].
  rewrite Hsels, Hsp. cbn [app].
  rewrite (stringify_built _ (heap w) [oa; ob; oc]);
    cbn [heap selectors splitters length seq].
  - cbn [fmap list_fmap]. by rewrite Hsa, Hsb, Hsc.
  - by rewrite <- !app_assoc.
  - rewrite !length_app. cbn [length]. by rewrite !Nat.add_1_r.
  - done.
  - apply Forall_app. split; [done |]. by repeat constructor.
Qed.

Lemma left_nested_reverses_combinators_witness :
  let ca : compound := ((KElement, "a"), []) in
  let cb : compound := ((KElement, "b"), []) in
  let cc : compound := ((KElement, "c"), []) in
  wf cssSelectorBuilder.init = true
  ∧ value_of (left_nested ca cb cc (VStr "+") (VStr "~") cssSelectorBuilder.init)
    = Some "a ~ b + c".
Proof.
  intros ca cb cc. split; [reflexivity |].
  apply (left_nested_reverses_combinators ca cb cc (VStr "+") (VStr "~")
           cssSelectorBuilder.init); reflexivity.
Defined.

(** X12: a binary [combine] on a facade with nothing pending serializes as
    the text of the left compound, the combinator between two spaces, and
    the text of the right compound. A falsy combinator ([undefined], [null],
    [false], the empty string) is left out together with its spaces, so the
    two texts are joined directly. *)
Theorem binary_combine (ca cb : compound) (b : jsval) (w : world) :
  wf w = true → selectors w = [] → splitters w = [] →
  compound_valid ca = true → compound_valid cb = true →
  value_of ((ls ← build_all [ca; cb]; e ← nest ls [b]; stringify e) w)
  = Some (compound_text ca
          +:+ (if truthy b then " " +:+ to_string b +:+ " " else "")
          +:+ compound_text cb).
Proof.
  intros Hw Hsels Hsp Ha Hb.
  rewrite (nested_value [ca; cb] [b] w) by (repeat constructor; done).
  f_equal. cbn [fmap list_fmap interleave].
  change (default VUndefined (head [b])) with b.
  change (default VUndefined (head (tail [b]))) with VUndefined.
  unfold cssSelectorBuilder.add_splitter.
  change (truthy VUndefined) with false. cbv iota.
  rewrite !append_empty_r. destruct (truthy b).
  - by rewrite append_assoc.
  - reflexivity.
Qed.

Lemma binary_combine_witness :
  let ca : compound := ((KElement, "p"), [(KClass, "x")]) in
  let cb : compound := ((KElement, "b"), []) in
  wf cssSelectorBuilder.init = true
  ∧ compound_valid ca = true
  ∧ value_of ((ls ← build_all [ca; cb]; e ← nest ls [VStr ""]; stringify e)
                cssSelectorBuilder.init)
    = Some "p.xb".
Proof.
  intros ca cb. split; [reflexivity |]. split; [reflexivity |].
  apply (binary_combine ca cb (VStr "") cssSelectorBuilder.init); reflexivity.
Defined.

(** X13: a combined expression can be serialized once. On every store that
    the public methods produce and that has a compound registered, the
    facade's [stringify] returns, and calling it again on the store it
    leaves throws a TypeError. *)
Theorem facade_stringify_once (w : world) :
  reachable w → selectors w ≠ [] →
  thrown (stringify VFacade w) = None
  ∧ thrown (stringify VFacade (state_of (stringify VFacade w))) = Some TypeError.
Proof.
  intros Hw%reachable_wf Hne. cbn [stringify].
  destruct (facade_stringify_ok w Hw Hne) as (w1 & strs & _ & -> & _).
  split; [reflexivity |]. cbn [state_of].
  by rewrite facade_stringify_empty.
Qed.

Lemma facade_stringify_once_witness :
  let w := fold_left perform
             [ANew KElement "a"; ANew KElement "b";
              ACombine (VSel 0) (VStr "+") [VSel 1]]
             cssSelectorBuilder.init in
  reachable w ∧ selectors w ≠ []
  ∧ thrown (stringify VFacade (state_of (stringify VFacade w))) = Some TypeError.
Proof.
  intros w.
  assert (reachable w) as Hw by (eexists; reflexivity).
  assert (selectors w ≠ []) as Hne by discriminate.
  split; [exact Hw |]. split; [exact Hne |].
  apply (facade_stringify_once w Hw Hne).
Defined.

(** X14: a compound that was created and not serialized stays registered
    and is serialized with the next expression that has a combinator. After
    any call chain on the facade, whether it returned or threw, on a facade
    with nothing pending before it, the next right-nested expression of two
    or more valid compounds (one combinator at least) serializes with the
    string of the abandoned compound in front: that string takes the first
    combinator, and every compound of the expression the combinator written
    after it. *)
Theorem abandoned_compound_is_serialized (f : fname) (v : string)
    (fs : list (fname * string)) (cs : list compound) (bs : list jsval)
    (w : world) :
  wf w = true → selectors w = [] → splitters w = [] →
  Forall (λ c, compound_valid c = true) cs →
  length cs = S (length bs) → bs ≠ [] →
  let w0 := state_of (build f v fs w) in
  ∃ s0, str <$> heap w0 !! length (heap w) = Some s0
    ∧ value_of ((ls ← build_all cs; e ← nest ls bs; stringify e) w0)
      = Some (interleave (s0 :: (compound_text <$> cs)) bs).
Proof.
  intros Hw Hsels Hsp Hvalid Hlen Hbs w0.
  pose proof Hw as (Hh & _ & _)%wf_spec.
  pose proof (appends_prototype fs
                (set_prototype (Some Builder)
                   (state_of (Selector.call f v Selector.new)))) as Hp0.
  assert (∃ o0, w0 = {| heap := heap w ++ [o0];
                        selectors := [length (heap w)];
                        splitters := [] |}
                ∧ prototype o0 = Some Builder) as (o0 & Hw0 & Hpo).
  { unfold w0. rewrite build_unfold.
    destruct (appends fs _) as [o0 ?|o0 ?]; exists o0;
      cbn [state_of] in *; by rewrite Hsels, Hsp. }
  clearbody w0. subst w0. exists (str o0).
  split; [cbn [heap]; by rewrite lookup_new_object |].
  destruct (build_all_valid cs
              {| heap := heap w ++ [o0]; selectors := [length (heap w)];
                 splitters := [] |} Hvalid)
    as (objs & Hbuild & Hstrs & Hps).
  unfold mbind, M_bind.
  rewrite Hbuild, nest_splitters by (by rewrite length_seq).
  cbn [heap selectors splitters]. rewrite app_nil_r.
  assert (length objs = length cs) as Hobjs.
  { by rewrite <- (length_fmap str objs), Hstrs, length_fmap. }
  destruct bs as [|b bs]; [done |]. cbn [stringify].
  rewrite (stringify_built _ (heap w) (o0 :: objs));
    cbn [heap selectors splitters].
  - cbn [fmap list_fmap]. by rewrite Hstrs.
  - by rewrite <- app_assoc.
  - rewrite length_app. cbn [length app seq]. by rewrite Nat.add_1_r, Hobjs.
  - done.
  - apply Forall_app. split; [done |]. by apply Forall_cons.
Qed.

Lemma abandoned_compound_is_serialized_witness :
  let cs : list compound := [((KElement, "b"), []); ((KElement, "c"), [])] in
  let w0 := state_of (build KClass "a" [(KElement, "x")] cssSelectorBuilder.init) in
  thrown (build KClass "a" [(KElement, "x")] cssSelectorBuilder.init)
  = Some (Error msg_order)
  ∧ value_of ((ls ← build_all cs; e ← nest ls [VStr "+"]; stringify e) w0)
    = Some ".a + bc".
Proof.
  intros cs w0. split; [reflexivity |].
  assert (Forall (λ c, compound_valid c = true) cs) as Hvalid
    by (repeat constructor).
  destruct (abandoned_compound_is_serialized KClass "a" [(KElement, "x")]
              cs [VStr "+"] cssSelectorBuilder.init
              eq_refl eq_refl eq_refl Hvalid eq_refl ltac:(discriminate))
    as (s0 & Hs0 & Hval).
  fold w0 in Hval. rewrite Hval.
  vm_compute in Hs0. injection Hs0 as <-. reflexivity.
Defined.

(** X15: splitters that an earlier expression left behind (those of an
    expression whose operand was serialized on its own, or whose
    serialization threw) are not discarded: on a facade with no compound
    registered, the next right-nested expression of two or more valid
    compounds (one combinator at least) puts its own combinators in front of
    them, so its last compound is followed by the first leftover
    splitter. *)
Theorem leftover_splitters_are_used (cs : list compound) (bs : list jsval)
    (w : world) :
  wf w = true → selectors w = [] →
  Forall (λ c, compound_valid c = true) cs →
  length cs = S (length bs) → bs ≠ [] →
  value_of ((ls ← build_all cs; e ← nest ls bs; stringify e) w)
  = Some (interleave (compound_text <$> cs) (bs ++ splitters w)).
Proof.
  intros Hw Hsels Hvalid Hlen Hbs.
  destruct (build_all_valid cs w Hvalid) as (objs & Hbuild & Hstrs & Hps).
  unfold mbind, M_bind. rewrite Hbuild, nest_splitters by (by rewrite length_seq).
  cbn [heap selectors splitters]. rewrite Hsels. cbn [app].
  assert (length objs = length cs) as Hobjs.
  { by rewrite <- (length_fmap str objs), Hstrs, length_fmap. }
  pose proof Hw as (Hh & _ & _)%wf_spec.
  destruct bs as [|b bs]; [done |].
  cbn [stringify]. rewrite <- Hobjs.
  erewrite (stringify_built _ (heap w) objs); cbn [heap selectors splitters].
  - by rewrite Hstrs.
  - reflexivity.
  - reflexivity.
  - destruct objs; [| done]. simpl in Hobjs. simpl in Hlen. lia.
  - by apply Forall_app.
Qed.

Lemma leftover_splitters_are_used_witness :
  let w := fold_left perform
             [ANew KElement "a"; ANew KElement "b";
              ACombine (VSel 0) (VStr "~") [VSel 1];
              AStringify (VSel 0)]
             cssSelectorBuilder.init in
  let cs : list compound := [((KElement, "c"), []); ((KElement, "d"), [])] in
  wf w = true ∧ selectors w = [] ∧ splitters w = [VStr "~"]
  ∧ value_of ((ls ← build_all cs; e ← nest ls [VStr ">"]; stringify e) w)
    = Some "c > d ~ ".
Proof.
  intros w cs. repeat (split; [reflexivity |]).
  assert (Forall (λ c, compound_valid c = true) cs) as Hvalid
    by (repeat constructor).
  rewrite (leftover_splitters_are_used cs [VStr ">"] w
             eq_refl eq_refl Hvalid eq_refl ltac:(discriminate)).
  reflexivity.
Defined.
